(** * Shortest-Path-Visualizer: the graph store and the Dijkstra engine

    A shallow embedding of [Miami-code-sample.py].

    - A Python [dict] is an insertion-ordered association list with string
      keys: [dget] is [m[k]] / [k in m], [dset] is [m[k] = v] (an existing
      key keeps its position, a new key goes last), [ddel] is [del m[k]] /
      [m.pop(k, None)].
    - The engine is embedded twice. [dijkstra_shortest_path] is lines 5-30
      on a graph whose weights are Python [int]s, as the seed graph of
      [main] has them: [int] is unbounded, so [current_distance + weight]
      is the exact sum, and a tentative distance is an [int] or the
      [float('inf')] of line 9 ([num]), which Python compares exactly.
      [FloatEngine.dijkstra_shortest_path] is the same lines on a graph
      whose weights are Python [float]s (IEEE binary64), as [add_place] and
      [add_route] store them: there [+] rounds and overflows. A theorem
      about distances says which weights it is about.
    - The operations of the shell copy a weight and never compute with
      it; they are stated on the store with integer weights.
    - An association list stands for a dictionary when no key occurs twice
      ([well_formed]); the seed graph is so and the shell keeps the store
      so ([store_stays_well_formed]).
    - A missing key raises [KeyError]; the two [while] loops take fuel, and
      the theorems give the fuel that suffices.
    - [heapq] is used through its interface only: the queue is kept as a
      list sorted by Python's tuple order on [(distance, name)], so that
      [heappop] returns the smallest entry. *)

From Stdlib Require Import ZArith List String Ascii Bool Arith Lia Sorted.
From Stdlib Require Import PrimFloat Uint63.
Import ListNotations.
Local Open Scope string_scope.
Local Open Scope list_scope.
Local Open Scope Z_scope.

(** ** Python dictionaries *)

Module Dict.

Section Ops.
Context {V : Type}.

Definition dict := list (string * V).

Fixpoint dget (m : dict) (k : string) : option V :=
  match m with
  | [] => None
  | (k', v) :: m' => if String.eqb k k' then Some v else dget m' k
  end.

Definition dmem (m : dict) (k : string) : bool :=
  match dget m k with Some _ => true | None => false end.

Fixpoint dset (m : dict) (k : string) (v : V) : dict :=
  match m with
  | [] => [(k, v)]
  | (k', v') :: m' =>
      if String.eqb k k' then (k', v) :: m' else (k', v') :: dset m' k v
  end.

Fixpoint ddel (m : dict) (k : string) : dict :=
  match m with
  | [] => []
  | (k', v') :: m' =>
      if String.eqb k k' then ddel m' k else (k', v') :: ddel m' k
  end.

Definition keys (m : dict) : list string := map fst m.

Fixpoint uniq (l : list string) : bool :=
  match l with
  | [] => true
  | k :: l' => negb (existsb (String.eqb k) l') && uniq l'
  end.

End Ops.

Arguments dict : clear implicits.

End Dict.
Import Dict.

(** ** Numbers, results *)

Inductive num : Type :=
| Fin (z : Z)
| Inf.

Definition num_ltb (a b : num) : bool :=
  match a, b with
  | Fin x, Fin y => x <? y
  | Fin _, Inf => true
  | Inf, _ => false
  end.

Arguments num_ltb : simpl never.

Definition num_eqb (a b : num) : bool :=
  match a, b with
  | Fin x, Fin y => x =? y
  | Inf, Inf => true
  | _, _ => false
  end.

Inductive result (A : Type) : Type :=
| Ok (a : A)
| KeyError (k : string)
| OutOfFuel.

Arguments Ok {A} a.
Arguments KeyError {A} k.
Arguments OutOfFuel {A}.

Definition bind {A B : Type} (r : result A) (f : A -> result B) : result B :=
  match r with
  | Ok a => f a
  | KeyError k => KeyError k
  | OutOfFuel => OutOfFuel
  end.

Notation "x <- r ;; k" := (bind r (fun x => k))
  (at level 61, r at next level, right associativity).
Notation "' p <- r ;; k" := (bind r (fun p => k))
  (at level 61, p pattern, r at next level, right associativity).

Definition lookup {V : Type} (m : dict V) (k : string) : result V :=
  match dget m k with
  | Some v => Ok v
  | None => KeyError k
  end.

(** ** The graph and the priority queue *)

Abbreviation neighbors := (dict Z) (only parsing).
Abbreviation graph := (dict (dict Z)) (only parsing).
Abbreviation distances := (dict num) (only parsing).
Abbreviation previous := (dict (option string)) (only parsing).
Abbreviation entry := (Z * string)%type (only parsing).
Abbreviation queue := (list (Z * string)) (only parsing).

(** Python's [<=] on the tuples [(distance, name)]. *)
Definition entry_leb (a b : entry) : bool :=
  (fst a <? fst b) || ((fst a =? fst b) && String.leb (snd a) (snd b)).

Fixpoint heappush (q : queue) (x : entry) : queue :=
  match q with
  | [] => [x]
  | y :: q' => if entry_leb x y then x :: y :: q' else y :: heappush q' x
  end.

Definition heappop (q : queue) : option (entry * queue) :=
  match q with
  | [] => None
  | x :: q' => Some (x, q')
  end.

(** ** dijkstra_shortest_path *)

Abbreviation state := (distances * previous * queue)%type (only parsing).

(** Lines 18-22: one neighbor of the popped node, on [int] weights. The sum
    of line 18 is the sum of two unbounded [int]s, and line 19 compares an
    [int] with an [int] or with [float('inf')]. The same lines on [float]
    weights are [FloatEngine.relax]. *)
Definition relax (current_distance : Z) (current_node : string)
    (st : state) (nw : string * Z) : result state :=
  let '(dist, prev, q) := st in
  let '(neighbor, weight) := nw in
  let distance := current_distance + weight in
  dn <- lookup dist neighbor ;;
  if num_ltb (Fin distance) dn
  then Ok (dset dist neighbor (Fin distance),
           dset prev neighbor (Some current_node),
           heappush q (distance, neighbor))
  else Ok st.

(** Line 17: the [for] loop over [graph[current_node].items()]. *)
Fixpoint relax_all (current_distance : Z) (current_node : string)
    (st : state) (items : neighbors) : result state :=
  match items with
  | [] => Ok st
  | nw :: items' =>
      st' <- relax current_distance current_node st nw ;;
      relax_all current_distance current_node st' items'
  end.

(** Lines 13-22: the [while queue] loop. *)
Fixpoint main_loop (fuel : nat) (g : graph) (st : state)
    : result (distances * previous) :=
  match fuel with
  | O => OutOfFuel
  | S fuel' =>
      let '(dist, prev, q) := st in
      match heappop q with
      | None => Ok (dist, prev)
      | Some ((current_distance, current_node), q') =>
          dc <- lookup dist current_node ;;
          if num_ltb dc (Fin current_distance)
          then main_loop fuel' g (dist, prev, q')
          else
            items <- lookup g current_node ;;
            st' <- relax_all current_distance current_node
                     (dist, prev, q') items ;;
            main_loop fuel' g st'
      end
  end.

(** Lines 24-27: the walk along [previous_nodes], appending. *)
Fixpoint walk_back (fuel : nat) (prev : previous) (current : option string)
    (shortest_path : list string) : result (list string) :=
  match fuel with
  | O => OutOfFuel
  | S fuel' =>
      match current with
      | None => Ok shortest_path
      | Some c =>
          p <- lookup prev c ;;
          walk_back fuel' prev p (shortest_path ++ [c])
      end
  end.

(** Lines 7-11. *)
Definition init_state (g : graph) (start : string) : state :=
  (dset (map (fun kv => (fst kv, Inf)) g) start (Fin 0),
   map (fun kv => (fst kv, @None string)) g,
   heappush [] (0, start)).

Definition dijkstra_shortest_path (fuel : nat) (g : graph)
    (start end_ : string) : result (list string * num) :=
  '(dist, prev) <- main_loop fuel g (init_state g start) ;;
  shortest_path <- walk_back fuel prev (Some end_) [] ;;
  d <- lookup dist end_ ;;
  Ok (rev shortest_path, d).

(** ** The seed graph of [main] *)

Definition seed_graph : graph :=
  [ ("Jauhar",  [("Gulshan", 5); ("Malir", 7)]);
    ("Gulshan", [("Jauhar", 5); ("Korangi", 10); ("Malir", 3)]);
    ("Korangi", [("Gulshan", 10); ("Malir", 4)]);
    ("Malir",   [("Jauhar", 7); ("Gulshan", 3); ("Korangi", 4); ("Saddar", 8)]);
    ("Saddar",  [("Malir", 8); ("Clifton", 6)]);
    ("Clifton", [("Saddar", 6); ("Defence", 4)]);
    ("Defence", [("Clifton", 4)]) ].

(** ** The shell's operations on the store

    What the shell reads is a parameter: a menu number is [Some n], or [None]
    when [int] raises [ValueError]; a distance is [Some w], or [None] when
    [float] raises [ValueError]. *)

Definition select_place (g : graph) (choice : option Z) : option string :=
  match choice with
  | None => None
  | Some c =>
      if (1 <=? c) && (c <=? Z.of_nat (List.length g))
      then nth_error (keys g) (Z.to_nat (c - 1))
      else None
  end.

(** [not place]: [None] and the empty string are both false in Python. *)
Definition falsy (place : option string) : bool :=
  match place with
  | None => true
  | Some s => String.eqb s ""
  end.

Inductive report : Type :=
| Cancelled
| AlreadyExists
| PlaceAdded
| PlaceRemoved
| RouteUpdated
| InvalidDistance
| RouteRemoved
| NoRouteExists
| Raised (k : string).

(** [graph[a][b] = w] *)
Definition set_weight (g : graph) (a b : string) (w : Z) : graph :=
  match dget g a with
  | Some nb => dset g a (dset nb b w)
  | None => g
  end.

(** Lines 99-100 (and 63-64): the route is written in both directions. *)
Definition set_both (g : graph) (a b : string) (w : Z) : graph :=
  set_weight (set_weight g a b w) b a w.

Definition add_route (g : graph) (choice1 choice2 : option Z)
    (distance : option Z) : graph * report :=
  let place1 := select_place g choice1 in
  let place2 := select_place g choice2 in
  match place1, place2 with
  | Some p1, Some p2 =>
      if falsy place1 || falsy place2 then (g, Cancelled)
      else match distance with
           | Some w => (set_both g p1 p2 w, RouteUpdated)
           | None => (g, InvalidDistance)
           end
  | _, _ => (g, Cancelled)
  end.

Definition remove_route (g : graph) (choice1 choice2 : option Z)
    : graph * report :=
  let place1 := select_place g choice1 in
  let place2 := select_place g choice2 in
  match place1, place2 with
  | Some p1, Some p2 =>
      if falsy place1 || falsy place2 then (g, Cancelled)
      else
        match dget g p1 with
        | None => (g, Raised p1)
        | Some nb1 =>
            if dmem nb1 p2 then
              let g1 := dset g p1 (ddel nb1 p2) in
              match dget g1 p2 with
              | None => (g1, Raised p2)
              | Some nb2 =>
                  if dmem nb2 p1
                  then (dset g1 p2 (ddel nb2 p1), RouteRemoved)
                  else (g1, Raised p1)
              end
            else (g, NoRouteExists)
        end
  | _, _ => (g, Cancelled)
  end.

Definition remove_place (g : graph) (choice : option Z) : graph * report :=
  let place := select_place g choice in
  match place with
  | Some p =>
      if falsy place then (g, Cancelled)
      else (map (fun kv => (fst kv, ddel (snd kv) p)) (ddel g p), PlaceRemoved)
  | None => (g, Cancelled)
  end.

(** One round of the [while True] loop of [add_place]: the neighbor typed,
    and the distance typed for it; the list ends where the user types
    [done]. *)
Definition connect (new_place : string) (g : graph)
    (typed : string * option Z) : graph :=
  let '(neighbor, distance) := typed in
  if dmem g neighbor then
    match distance with
    | Some w => set_both g new_place neighbor w
    | None => g
    end
  else g.

Definition add_place (g : graph) (new_place : string)
    (typed : list (string * option Z)) : graph * report :=
  if dmem g new_place then (g, AlreadyExists)
  else (fold_left (connect new_place) typed (dset g new_place []),
        PlaceAdded).

(** Choice 1 of the menu of [main]. *)
Inductive answer : Type :=
| NoPathExists (start end_ : string)
| ShortestPath (path : list string) (total_distance : num)
| NoQuery.

Definition find_shortest_path (fuel : nat) (g : graph)
    (choice1 choice2 : option Z) : result answer :=
  let start := select_place g choice1 in
  let end_ := select_place g choice2 in
  match start, end_ with
  | Some s, Some e =>
      if falsy start || falsy end_ then Ok NoQuery
      else
        '(path, total_distance) <- dijkstra_shortest_path fuel g s e ;;
        if num_eqb total_distance Inf
        then Ok (NoPathExists s e)
        else Ok (ShortestPath path total_distance)
  | _, _ => Ok NoQuery
  end.

(** Two places joined by a route of weight -1 in both directions, and a
    third place with no route: a graph that [dijkstra_shortest_path]
    accepts as it accepts any other. *)
Definition negative_graph : graph :=
  [ ("A", [("B", -1)]); ("B", [("A", -1)]); ("Z", []) ].

(** The seed graph after [add_place] of a place with no route. *)
Definition seed_with_island : graph :=
  fst (add_place seed_graph "Island" []).

(** ** Paths and the invariants of the store *)

Definition weight_of (g : graph) (u v : string) : option Z :=
  match dget g u with
  | Some nb => dget nb v
  | None => None
  end.

(** The sum of the edge weights along a sequence of places; [None] when two
    consecutive places are not joined by a route. *)
Fixpoint path_weight (g : graph) (p : list string) : option Z :=
  match p with
  | [] => Some 0
  | u :: p' =>
      match p' with
      | [] => Some 0
      | v :: _ =>
          match weight_of g u v, path_weight g p' with
          | Some w, Some d => Some (w + d)
          | _, _ => None
          end
      end
  end.

Definition is_path (g : graph) (s e : string) (p : list string) (d : Z)
    : Prop :=
  hd_error p = Some s /\ last p s = e /\ path_weight g p = Some d.

Definition simple_path (g : graph) (s e : string) (p : list string) (d : Z)
    : Prop :=
  is_path g s e p d /\ NoDup p.

Definition reachable (g : graph) (s e : string) : Prop :=
  exists p d, is_path g s e p d.

(** Keys are unique, in the graph and in every neighbor map. *)
Definition well_formed (g : graph) : bool :=
  uniq (keys g) && forallb (fun kv => uniq (keys (snd kv))) g.

Definition nonneg (g : graph) : bool :=
  forallb (fun kv => forallb (fun nw => 0 <=? snd nw) (snd kv)) g.

Definition closed (g : graph) : bool :=
  forallb (fun kv => forallb (fun nw => dmem g (fst nw)) (snd kv)) g.

Definition symmetric (g : graph) : Prop :=
  forall a b w, weight_of g a b = Some w -> weight_of g b a = Some w.

Definition symmetricb (g : graph) : bool :=
  forallb (fun kv =>
    forallb (fun nw =>
      match weight_of g (fst nw) (fst kv) with
      | Some w => w =? snd nw
      | None => false
      end) (snd kv)) g.

(** ** Predicates on the run of the engine *)

(** [walk g s v d]: [v] is reached from [s] along routes of total weight
    [d]. *)
Inductive walk (g : graph) (s : string) : string -> Z -> Prop :=
| walk_here : walk g s s 0
| walk_step v x d w :
    walk g s v d -> weight_of g v x = Some w -> walk g s x (d + w).

(** [ends prev c]: the walk along [previous_nodes] from [c] stops. *)
Inductive ends (prev : previous) : option string -> Prop :=
| ends_None : ends prev None
| ends_missing c : dget prev c = None -> ends prev (Some c)
| ends_next c p : dget prev c = Some p -> ends prev p -> ends prev (Some c).

Definition is_inf (d : num) : bool :=
  match d with Inf => true | Fin _ => false end.

(** The two components of the measure of the [while queue] loop: how many
    tentative distances are still infinite, and the sum of the finite
    ones. *)
Definition count_inf (dist : distances) : nat :=
  List.length (filter (fun kv => is_inf (snd kv)) dist).

Fixpoint fin_total (dist : distances) : nat :=
  match dist with
  | [] => 0%nat
  | (_, Fin d) :: dist' => (Z.to_nat d + fin_total dist')%nat
  | (_, Inf) :: dist' => fin_total dist'
  end.

(** Every edge out of [u] is relaxed with respect to the distance [d]. *)
Definition relaxed (g : graph) (dist : distances) (u : string) (d : Z)
    : Prop :=
  forall items v w,
    dget g u = Some items -> In (v, w) items ->
    exists dv, dget dist v = Some (Fin dv) /\ dv <= d + w.

(** Every key the loops look up is there: the places of the graph are keys
    of [distances] and of [previous_nodes], the queue holds places only, and
    so does [previous_nodes]. *)
Definition keys_ok (g : graph) (st : state) : Prop :=
  let '(dist, prev, q) := st in
  (forall k, In k (keys g) -> dget dist k <> None) /\
  (forall k, In k (keys g) -> dget prev k <> None) /\
  (forall d x, In (d, x) q -> In x (keys g)) /\
  (forall v u, dget prev v = Some (Some u) -> In u (keys g)).

Definition queue_nonneg (q : queue) : Prop :=
  forall d x, In (d, x) q -> 0 <= d.

(** The measure of the [while queue] loop goes down lexicographically. *)
Definition improved (dist' dist : distances) : Prop :=
  (count_inf dist' < count_inf dist)%nat \/
  (count_inf dist' = count_inf dist /\ (fin_total dist' < fin_total dist)%nat).

(** The predecessors form a forest rooted at the start: a queue entry is
    never below the tentative distance of its place, the start keeps
    distance 0 and no predecessor, a predecessor is never farther than its
    successor, and every walk along predecessors stops. *)
Definition tree_ok (s : string) (st : state) : Prop :=
  let '(dist, prev, q) := st in
  queue_nonneg q /\
  (forall d x, In (d, x) q ->
     exists d', dget dist x = Some (Fin d') /\ d' <= d) /\
  dget dist s = Some (Fin 0) /\
  (forall p, dget prev s = Some p -> p = None) /\
  (forall v u, dget prev v = Some (Some u) ->
     exists du dv, dget dist u = Some (Fin du) /\
                   dget dist v = Some (Fin dv) /\ du <= dv) /\
  (forall c, ends prev c).

(** Every finite tentative distance and every queue entry is the weight of
    a walk from the start. *)
Definition sound (g : graph) (s : string) (st : state) : Prop :=
  let '(dist, prev, q) := st in
  (forall v d, dget dist v = Some (Fin d) -> walk g s v d) /\
  (forall d x, In (d, x) q -> walk g s x d).

(** A place with a finite tentative distance [d] either waits in the queue
    with [d], or has all its edges relaxed with respect to [d]; while the
    neighbors of the popped [(cd, u)] are visited, [u] is the exception. *)
Definition settled_but (g : graph) (cd : Z) (u : string) (st : state)
    : Prop :=
  let '(dist, prev, q) := st in
  forall x d, dget dist x = Some (Fin d) ->
    (x = u /\ d = cd) \/ In (d, x) q \/ relaxed g dist x d.

Definition settled (g : graph) (st : state) : Prop :=
  let '(dist, prev, q) := st in
  forall x d, dget dist x = Some (Fin d) ->
    In (d, x) q \/ relaxed g dist x d.

(** No route leads out of the set of places [area]. *)
Definition stays_in (g : graph) (area : list string) : bool :=
  forallb (fun v =>
    match dget g v with
    | Some nb => forallb (fun x => existsb (String.eqb x) area) (keys nb)
    | None => true
    end) area.

(** The queue is sorted: its head is below every other entry. *)
Definition sorted_queue (q : queue) : Prop :=
  StronglySorted (fun a b => entry_leb a b = true) q.

(** Each predecessor is joined to its successor by a route that accounts
    for the successor's tentative distance, and a place with a finite
    tentative distance is the start or has a predecessor. *)
Definition links_ok (g : graph) (s : string) (st : state) : Prop :=
  let '(dist, prev, q) := st in
  (forall v u, dget prev v = Some (Some u) ->
     exists w du dv,
       weight_of g u v = Some w /\ dget dist u = Some (Fin du) /\
       dget dist v = Some (Fin dv) /\ du + w <= dv) /\
  (forall v d, dget dist v = Some (Fin d) ->
     v = s \/ exists u, dget prev v = Some (Some u)).

(** The distances typed in the rounds of [add_place] are non-negative. *)
Definition typed_nonneg (typed : list (string * option Z)) : bool :=
  forallb (fun t => match snd t with Some w => 0 <=? w | None => true end)
    typed.

(** The stores the shell builds from the seed graph when every distance
    typed is non-negative. *)
Inductive built : graph -> Prop :=
| built_seed : built seed_graph
| built_add_place g p typed :
    built g -> typed_nonneg typed = true ->
    built (fst (add_place g p typed))
| built_remove_place g c :
    built g -> built (fst (remove_place g c))
| built_add_route g c1 c2 w :
    built g -> 0 <= w -> built (fst (add_route g c1 c2 (Some w)))
| built_remove_route g c1 c2 :
    built g -> built (fst (remove_route g c1 c2)).

(** [enumerate(l, start)] *)
Fixpoint enumerate (start : Z) (l : list string) : list (Z * string) :=
  match l with
  | [] => []
  | x :: l' => (start, x) :: enumerate (start + 1) l'
  end.

(** [list_places]: the numbered lines printed, as pairs. *)
Definition list_places (g : graph) : list (Z * string) :=
  enumerate 1 (keys g).

(** Line 43 of [visualize_graph]: the edges to highlight. *)
Fixpoint edges_in_path (shortest_path : list string)
    : list (string * string) :=
  match shortest_path with
  | [] => []
  | u :: rest =>
      match rest with
      | [] => []
      | v :: _ => (u, v) :: edges_in_path rest
      end
  end.

(** ** The engine on float weights

    The same lines 5-30 with Python's floats (IEEE binary64) for the
    weights and the distances: [+] rounds and overflows to [inf], and
    [float('inf')] is a float like the others. The walk along the
    predecessors does no arithmetic and is shared. *)

Module FloatEngine.

Definition entry_leb (a b : float * string) : bool :=
  PrimFloat.ltb (fst a) (fst b)
  || (PrimFloat.eqb (fst a) (fst b) && String.leb (snd a) (snd b)).

Fixpoint heappush (q : list (float * string)) (x : float * string)
    : list (float * string) :=
  match q with
  | [] => [x]
  | y :: q' => if entry_leb x y then x :: y :: q' else y :: heappush q' x
  end.

Definition heappop (q : list (float * string))
    : option ((float * string) * list (float * string)) :=
  match q with
  | [] => None
  | x :: q' => Some (x, q')
  end.

Definition relax (current_distance : float) (current_node : string)
    (st : dict float * dict (option string) * list (float * string))
    (nw : string * float)
    : result (dict float * dict (option string) * list (float * string)) :=
  let '(dist, prev, q) := st in
  let '(neighbor, weight) := nw in
  let distance := PrimFloat.add current_distance weight in
  dn <- lookup dist neighbor ;;
  if PrimFloat.ltb distance dn
  then Ok (dset dist neighbor distance,
           dset prev neighbor (Some current_node),
           heappush q (distance, neighbor))
  else Ok st.

Fixpoint relax_all (current_distance : float) (current_node : string)
    (st : dict float * dict (option string) * list (float * string))
    (items : dict float)
    : result (dict float * dict (option string) * list (float * string)) :=
  match items with
  | [] => Ok st
  | nw :: items' =>
      st' <- relax current_distance current_node st nw ;;
      relax_all current_distance current_node st' items'
  end.

Fixpoint main_loop (fuel : nat) (g : dict (dict float))
    (st : dict float * dict (option string) * list (float * string))
    : result (dict float * dict (option string)) :=
  match fuel with
  | O => OutOfFuel
  | S fuel' =>
      let '(dist, prev, q) := st in
      match heappop q with
      | None => Ok (dist, prev)
      | Some ((current_distance, current_node), q') =>
          dc <- lookup dist current_node ;;
          if PrimFloat.ltb dc current_distance
          then main_loop fuel' g (dist, prev, q')
          else
            items <- lookup g current_node ;;
            st' <- relax_all current_distance current_node
                     (dist, prev, q') items ;;
            main_loop fuel' g st'
      end
  end.

Definition init_state (g : dict (dict float)) (start : string)
    : dict float * dict (option string) * list (float * string) :=
  (dset (map (fun kv => (fst kv, infinity)) g) start PrimFloat.zero,
   map (fun kv => (fst kv, @None string)) g,
   heappush [] (PrimFloat.zero, start)).

Definition dijkstra_shortest_path (fuel : nat) (g : dict (dict float))
    (start end_ : string) : result (list string * float) :=
  '(dist, prev) <- main_loop fuel g (init_state g start) ;;
  shortest_path <- walk_back fuel prev (Some end_) [] ;;
  d <- lookup dist end_ ;;
  Ok (rev shortest_path, d).

End FloatEngine.

(** The float of an integer, and the integer a float is, when it is one. *)
Definition float_of (z : Z) : float := PrimFloat.of_uint63 (Uint63.of_Z z).

Definition integer_of (f : float) : option Z :=
  if PrimFloat.leb PrimFloat.zero f && PrimFloat.ltb f infinity then
    let '(m, e) := frshiftexp f in
    let mant := Uint63.to_Z (normfr_mantissa m) in
    let k := Uint63.to_Z e - 2101 - 53 in
    if 0 <=? k then Some (mant * 2 ^ k)
    else if mant mod 2 ^ (- k) =? 0 then Some (mant / 2 ^ (- k)) else None
  else None.

Definition integers_of (g : dict (dict float)) : dict (dict (option Z)) :=
  map (fun kv => (fst kv, map (fun nw => (fst nw, integer_of (snd nw)))
                            (snd kv))) g.

(** A graph with integer weights as the shell stores it, with each weight
    as a float, and a distance of the integer engine as a float. *)
Definition float_graph_of (g : graph) : dict (dict float) :=
  map (fun kv => (fst kv, map (fun nw => (fst nw, float_of (snd nw)))
                            (snd kv))) g.

Definition float_of_num (d : num) : float :=
  match d with
  | Fin z => float_of z
  | Inf => infinity
  end.

(** Three places in a row; the routes weigh 2^53 and 1, typed in the shell
    and stored as floats. *)
Definition rounding_graph : dict (dict float) :=
  [ ("A", [("B", float_of (2 ^ 53))]);
    ("B", [("A", float_of (2 ^ 53)); ("C", float_of 1)]);
    ("C", [("B", float_of 1)]) ].

(** The same routes with their weights as integers. *)
Definition rounding_graph_exact : graph :=
  [ ("A", [("B", 2 ^ 53)]);
    ("B", [("A", 2 ^ 53); ("C", 1)]);
    ("C", [("B", 1)]) ].

(** Two places joined by a route for which [inf] was typed. *)
Definition inf_graph : dict (dict float) :=
  [ ("A", [("B", infinity)]); ("B", [("A", infinity)]) ].

(** Three places in a row; both routes weigh 2^1023. *)
Definition overflow_graph : dict (dict float) :=
  [ ("A", [("B", 0x1p1023%float)]);
    ("B", [("A", 0x1p1023%float); ("C", 0x1p1023%float)]);
    ("C", [("B", 0x1p1023%float)]) ].

(** The seed graph after [add_place] of a place named by the empty string,
    joined to Jauhar and to itself. *)
Definition unnamed_graph : graph :=
  fst (add_place seed_graph "" [("Jauhar", Some 3); ("", Some 2)]).

(** ** Dictionary lemmas *)

Ltac eqb_cases :=
  repeat match goal with
  | |- context [String.eqb ?a ?b] =>
      destruct (String.eqb_spec a b); subst; simpl
  | H : context [String.eqb ?a ?b] |- _ =>
      destruct (String.eqb_spec a b); subst; simpl in H
  end.

Section DictFacts.
Context {V : Type}.
Implicit Types (m : dict V) (k : string) (v : V).

Lemma dget_dset m k v k' :
  dget (dset m k v) k' = if String.eqb k' k then Some v else dget m k'.
Proof.
  induction m as [|[k0 v0] m IH]; simpl.
  - destruct (String.eqb k' k); reflexivity.
  - destruct (String.eqb_spec k k0); subst; simpl.
    + destruct (String.eqb k' k0); reflexivity.
    + rewrite IH. destruct (String.eqb_spec k' k0); subst; auto.
      destruct (String.eqb_spec k0 k); congruence.
Qed.

Lemma dget_dset_same m k v : dget (dset m k v) k = Some v.
Proof. rewrite dget_dset, String.eqb_refl. reflexivity. Qed.

Lemma dget_dset_other m k v k' :
  k' <> k -> dget (dset m k v) k' = dget m k'.
Proof.
  intros H. rewrite dget_dset. apply String.eqb_neq in H. now rewrite H.
Qed.

Lemma dget_ddel m k k' :
  dget (ddel m k) k' = if String.eqb k' k then None else dget m k'.
Proof.
  induction m as [|[k0 v0] m IH]; simpl.
  - destruct (String.eqb k' k); reflexivity.
  - destruct (String.eqb_spec k k0); subst; simpl.
    + rewrite IH. destruct (String.eqb k' k0); reflexivity.
    + rewrite IH. destruct (String.eqb_spec k' k0); subst; auto.
      destruct (String.eqb_spec k0 k); congruence.
Qed.

Lemma dget_In m k v : dget m k = Some v -> In (k, v) m.
Proof.
  induction m as [|[k0 v0] m IH]; simpl; [discriminate|].
  destruct (String.eqb_spec k k0); subst.
  - intros [= ->]. now left.
  - intros H. right. auto.
Qed.

Lemma In_keys_dget m k : In k (keys m) -> exists v, dget m k = Some v.
Proof.
  induction m as [|[k0 v0] m IH]; simpl; [tauto|].
  intros [-> | H].
  - rewrite String.eqb_refl. eauto.
  - destruct (String.eqb k k0); eauto.
Qed.

Lemma dget_keys m k v : dget m k = Some v -> In k (keys m).
Proof.
  intros H. apply dget_In in H. apply (in_map fst) in H. exact H.
Qed.

Lemma dmem_true m k : dmem m k = true <-> exists v, dget m k = Some v.
Proof.
  unfold dmem. destruct (dget m k); split; eauto; try discriminate.
  intros [v H]. discriminate.
Qed.

Lemma existsb_eqb_In k (l : list string) :
  existsb (String.eqb k) l = true <-> In k l.
Proof.
  rewrite existsb_exists. split.
  - intros [x [Hx E]]. apply String.eqb_eq in E. now subst.
  - intros H. exists k. split; auto. apply String.eqb_refl.
Qed.

Lemma uniq_In_dget m k v :
  uniq (keys m) = true -> In (k, v) m -> dget m k = Some v.
Proof.
  induction m as [|[k0 v0] m IH]; simpl; [tauto|].
  intros U [E | H].
  - inversion E; subst. now rewrite String.eqb_refl.
  - apply andb_prop in U. destruct U as [N U].
    destruct (String.eqb_spec k k0) as [E|E]; auto.
    apply (in_map fst) in H. simpl in H. apply existsb_eqb_In in H.
    rewrite E in H. unfold keys in N. rewrite H in N. discriminate.
Qed.

End DictFacts.

Lemma dmem_keys {V : Type} (m : dict V) k : dmem m k = true <-> In k (keys m).
Proof.
  rewrite dmem_true. split.
  - intros [v H]. eapply dget_keys; eauto.
  - apply In_keys_dget.
Qed.

Lemma dget_map_values {V W : Type} (f : string -> V -> W) (m : dict V) k :
  dget (map (fun kv => (fst kv, f (fst kv) (snd kv))) m) k =
  option_map (f k) (dget m k).
Proof.
  induction m as [|[k0 v0] m IH]; simpl; auto.
  destruct (String.eqb_spec k k0); subst; auto.
Qed.

Lemma select_place_key g choice p :
  select_place g choice = Some p -> exists nb, dget g p = Some nb.
Proof.
  unfold select_place. destruct choice as [c|]; [|discriminate].
  destruct (_ && _); [|discriminate].
  intros H. apply nth_error_In in H. now apply In_keys_dget.
Qed.

(** ** The symmetry of the store *)

Lemma weight_of_dset g a nb x y :
  weight_of (dset g a nb) x y =
  if String.eqb x a then dget nb y else weight_of g x y.
Proof.
  unfold weight_of. rewrite dget_dset. destruct (String.eqb x a); auto.
Qed.

Lemma weight_of_set_weight g a b w x y :
  dmem g a = true ->
  weight_of (set_weight g a b w) x y =
  if String.eqb x a && String.eqb y b then Some w else weight_of g x y.
Proof.
  intros M. apply dmem_true in M. destruct M as [nb M].
  unfold set_weight. rewrite M, weight_of_dset, dget_dset.
  unfold weight_of. eqb_cases; auto. now rewrite M.
Qed.

Lemma dmem_set_weight g a b w x :
  dmem (set_weight g a b w) x = dmem g x.
Proof.
  unfold set_weight. destruct (dget g a) as [nb|] eqn:E; auto.
  unfold dmem. rewrite dget_dset.
  destruct (String.eqb_spec x a); subst; auto. now rewrite E.
Qed.

Lemma weight_of_set_both g a b w x y :
  dmem g a = true -> dmem g b = true ->
  weight_of (set_both g a b w) x y =
  if (String.eqb x a && String.eqb y b) || (String.eqb x b && String.eqb y a)
  then Some w else weight_of g x y.
Proof.
  intros Ma Mb. unfold set_both.
  rewrite weight_of_set_weight by now rewrite dmem_set_weight.
  rewrite weight_of_set_weight by assumption.
  eqb_cases; auto.
Qed.

Lemma set_both_symmetric g a b w :
  dmem g a = true -> dmem g b = true ->
  symmetric g -> symmetric (set_both g a b w).
Proof.
  intros Ma Mb S x y w'. rewrite !weight_of_set_both by assumption.
  eqb_cases; auto; try congruence.
Qed.

Lemma weight_of_key g a b w :
  weight_of g a b = Some w -> dmem g a = true.
Proof.
  unfold weight_of, dmem. destruct (dget g a); [reflexivity | discriminate].
Qed.

Lemma new_place_symmetric g p :
  dmem g p = false -> symmetric g -> symmetric (dset g p []).
Proof.
  intros N S a b w. rewrite !weight_of_dset.
  destruct (String.eqb_spec a p); subst; simpl; [discriminate|].
  intros H. pose proof (S _ _ _ H) as H'.
  destruct (String.eqb_spec b p); subst; auto.
  apply weight_of_key in H'. congruence.
Qed.

Lemma connect_symmetric p g typed :
  dmem g p = true -> symmetric g ->
  dmem (connect p g typed) p = true /\ symmetric (connect p g typed).
Proof.
  intros M S. destruct typed as [nb [w|]]; simpl.
  - destruct (dmem g nb) eqn:Mn; auto. split.
    + unfold set_both. now rewrite !dmem_set_weight.
    + now apply set_both_symmetric.
  - destruct (dmem g nb); auto.
Qed.

Lemma add_place_symmetric g p typed :
  symmetric g -> symmetric (fst (add_place g p typed)).
Proof.
  intros S. unfold add_place. destruct (dmem g p) eqn:M; simpl; auto.
  assert (M0 : dmem (dset g p []) p = true).
  { unfold dmem. now rewrite dget_dset_same. }
  pose proof (new_place_symmetric g p M S) as S0.
  revert M0 S0. generalize (dset g p []). clear.
  induction typed as [|t typed IH]; simpl; intros g0 M0 S0; auto.
  destruct (connect_symmetric p g0 t M0 S0) as [M1 S1]. now apply IH.
Qed.

Lemma add_route_symmetric g c1 c2 d :
  symmetric g -> symmetric (fst (add_route g c1 c2 d)).
Proof.
  intros S. unfold add_route.
  destruct (select_place g c1) as [p1|] eqn:E1; auto.
  destruct (select_place g c2) as [p2|] eqn:E2; auto.
  destruct (falsy _ || falsy _); auto.
  destruct d as [w|]; auto. simpl.
  apply select_place_key in E1, E2.
  apply set_both_symmetric; auto; now apply dmem_true.
Qed.

Lemma remove_route_symmetric g c1 c2 :
  symmetric g -> symmetric (fst (remove_route g c1 c2)).
Proof.
  intros S. unfold remove_route.
  destruct (select_place g c1) as [p1|] eqn:E1; auto.
  destruct (select_place g c2) as [p2|] eqn:E2; auto.
  destruct (falsy _ || falsy _); auto.
  destruct (dget g p1) as [nb1|] eqn:G1; auto.
  destruct (dmem nb1 p2) eqn:M12; auto.
  apply dmem_true in M12. destruct M12 as [w W12].
  assert (W : weight_of g p1 p2 = Some w) by (unfold weight_of; now rewrite G1).
  pose proof (S _ _ _ W) as W'.
  assert (F1 : forall x y, weight_of (dset g p1 (ddel nb1 p2)) x y =
            if String.eqb x p1 && String.eqb y p2 then None
            else weight_of g x y).
  { intros x y. rewrite weight_of_dset, dget_ddel. unfold weight_of.
    eqb_cases; auto; now rewrite G1. }
  destruct (dget (dset g p1 (ddel nb1 p2)) p2) as [nb2|] eqn:G2; simpl.
  - assert (F2 : forall x y,
              weight_of (dset (dset g p1 (ddel nb1 p2)) p2 (ddel nb2 p1)) x y =
              if (String.eqb x p1 && String.eqb y p2)
                 || (String.eqb x p2 && String.eqb y p1) then None
              else weight_of g x y).
    { intros x y. rewrite weight_of_dset, dget_ddel.
      specialize (F1 x y). unfold weight_of at 1 in F1.
      destruct (String.eqb_spec x p2); subst.
      - rewrite G2 in F1. destruct (String.eqb_spec y p1); subst; simpl.
        + now rewrite orb_true_r.
        + now rewrite orb_false_r.
      - simpl. rewrite orb_false_r. exact F1. }
    destruct (dmem nb2 p1) eqn:M21; simpl.
    + intros a b w'. rewrite !F2. eqb_cases; auto; try congruence.
    + assert (p1 = p2) as ->.
      { destruct (String.eqb_spec p1 p2); auto. exfalso.
        specialize (F1 p2 p1). unfold weight_of at 1 in F1.
        rewrite G2 in F1. unfold dmem in M21.
        destruct (String.eqb_spec p2 p1); [congruence|]. simpl in F1.
        rewrite F1, W' in M21. discriminate. }
      intros a b w'. rewrite !F1. eqb_cases; auto; try congruence.
  - exfalso. apply weight_of_key in W'. unfold dmem in W'.
    rewrite dget_dset in G2. destruct (String.eqb p2 p1); [discriminate|].
    now rewrite G2 in W'.
Qed.

Lemma weight_of_remove_place g p x y :
  weight_of (map (fun kv => (fst kv, ddel (snd kv) p)) (ddel g p)) x y =
  if String.eqb x p || String.eqb y p then None else weight_of g x y.
Proof.
  unfold weight_of.
  pose proof (dget_map_values (fun _ nb => ddel nb p) (ddel g p) x) as X.
  cbv beta in X. rewrite X, dget_ddel. clear X.
  destruct (String.eqb_spec x p); subst; simpl; auto.
  destruct (dget g x) as [nb|]; simpl.
  - rewrite dget_ddel. destruct (String.eqb y p); auto.
  - destruct (String.eqb y p); auto.
Qed.

Lemma remove_place_symmetric g c :
  symmetric g -> symmetric (fst (remove_place g c)).
Proof.
  intros S. unfold remove_place.
  destruct (select_place g c) as [p|] eqn:E; auto.
  destruct (falsy _); auto. simpl.
  intros a b w. rewrite !weight_of_remove_place.
  eqb_cases; auto; discriminate.
Qed.

Lemma symmetricb_sound g : symmetricb g = true -> symmetric g.
Proof.
  unfold symmetricb, symmetric, weight_of. intros H a b w.
  destruct (dget g a) as [nb|] eqn:Ga; [|discriminate].
  intros Gb. apply dget_In in Ga, Gb.
  rewrite forallb_forall in H. specialize (H _ Ga). simpl in H.
  rewrite forallb_forall in H. specialize (H _ Gb). simpl in H.
  unfold weight_of in H. destruct (dget g b) as [nb'|]; [|discriminate].
  destruct (dget nb' a) as [w'|]; [|discriminate].
  apply Z.eqb_eq in H. now subst.
Qed.

(** C4. From a symmetric store, each of the four mutations of the shell
    (add a place with its routes, add or update a route, remove a route,
    remove a place) leaves a symmetric store: whenever [a] lists [b] with
    weight [w], [b] lists [a] with weight [w]. *)
Theorem mutations_preserve_symmetry (g : graph) :
  symmetric g ->
  (forall new_place typed, symmetric (fst (add_place g new_place typed))) /\
  (forall c1 c2 distance, symmetric (fst (add_route g c1 c2 distance))) /\
  (forall c1 c2, symmetric (fst (remove_route g c1 c2))) /\
  (forall c, symmetric (fst (remove_place g c))).
Proof.
  intros S. repeat split; intros.
  - now apply add_place_symmetric.
  - now apply add_route_symmetric.
  - now apply remove_route_symmetric.
  - now apply remove_place_symmetric.
Qed.

Lemma mutations_preserve_symmetry_witness :
  symmetric seed_graph /\
  symmetric (fst (add_place seed_graph "Nazimabad" [("Saddar", Some 9)])) /\
  symmetric (fst (add_route seed_graph (Some 1) (Some 3) (Some 6))) /\
  symmetric (fst (remove_route seed_graph (Some 1) (Some 2))) /\
  symmetric (fst (remove_place seed_graph (Some 4))).
Proof.
  assert (S : symmetric seed_graph) by (apply symmetricb_sound; reflexivity).
  destruct (mutations_preserve_symmetry seed_graph S) as (A & B & C & D).
  repeat split; auto.
Defined.

(** ** The store stays a dictionary *)

Lemma In_keys_dset {V : Type} (m : dict V) k v x :
  In x (keys (dset m k v)) <-> x = k \/ In x (keys m).
Proof.
  rewrite <- !dmem_keys. unfold dmem. rewrite dget_dset.
  destruct (String.eqb_spec x k); subst.
  - intuition.
  - destruct (dget m x); intuition; discriminate.
Qed.

Lemma In_keys_ddel {V : Type} (m : dict V) k x :
  In x (keys (ddel m k)) <-> x <> k /\ In x (keys m).
Proof.
  rewrite <- !dmem_keys. unfold dmem. rewrite dget_ddel.
  destruct (String.eqb_spec x k); subst.
  - intuition; discriminate.
  - destruct (dget m x); intuition; discriminate.
Qed.

Lemma uniq_cons k (l : list string) :
  uniq (k :: l) = true <-> ~ In k l /\ uniq l = true.
Proof.
  simpl. rewrite andb_true_iff, negb_true_iff. split.
  - intros [A B]. split; auto. intros I; apply existsb_eqb_In in I; congruence.
  - intros [A B]. split; auto.
    destruct (existsb (String.eqb k) l) eqn:E; auto.
    apply existsb_eqb_In in E. contradiction.
Qed.

Lemma uniq_keys_dset {V : Type} (m : dict V) k v :
  uniq (keys m) = true -> uniq (keys (dset m k v)) = true.
Proof.
  induction m as [|[k0 v0] m IH]; [reflexivity|].
  simpl dset. destruct (String.eqb_spec k k0); subst; auto.
  change (keys ((k0, v0) :: m)) with (k0 :: keys m).
  change (keys ((k0, v0) :: dset m k v)) with (k0 :: keys (dset m k v)).
  rewrite !uniq_cons, In_keys_dset. intuition.
Qed.

Lemma uniq_keys_ddel {V : Type} (m : dict V) k :
  uniq (keys m) = true -> uniq (keys (ddel m k)) = true.
Proof.
  induction m as [|[k0 v0] m IH]; [reflexivity|].
  change (keys ((k0, v0) :: m)) with (k0 :: keys m). rewrite uniq_cons.
  intros [A B]. simpl ddel. destruct (String.eqb_spec k k0); subst; auto.
  change (keys ((k0, v0) :: ddel m k)) with (k0 :: keys (ddel m k)).
  rewrite uniq_cons, In_keys_ddel. intuition.
Qed.

Lemma well_formed_iff g :
  well_formed g = true <->
  uniq (keys g) = true /\ Forall (fun kv => uniq (keys (snd kv)) = true) g.
Proof.
  unfold well_formed. now rewrite andb_true_iff, Forall_forall, forallb_forall.
Qed.

Lemma well_formed_dset g k (nb : dict Z) :
  well_formed g = true -> uniq (keys nb) = true ->
  well_formed (dset g k nb) = true.
Proof.
  rewrite !well_formed_iff. intros [U F] Hn. split.
  - now apply uniq_keys_dset.
  - clear U. induction g as [|[k0 v0] g IH]; simpl.
    + repeat constructor; auto.
    + inversion F; subst.
      destruct (String.eqb k k0); constructor; auto.
Qed.

Lemma well_formed_dget g k nb :
  well_formed g = true -> dget g k = Some nb -> uniq (keys nb) = true.
Proof.
  rewrite well_formed_iff, Forall_forall. intros [_ F] G.
  apply dget_In in G. apply (F _ G).
Qed.

Lemma well_formed_set_both g a b w :
  well_formed g = true -> well_formed (set_both g a b w) = true.
Proof.
  assert (A : forall g a b, well_formed g = true ->
                            well_formed (set_weight g a b w) = true).
  { clear. intros g a b W. unfold set_weight.
    destruct (dget g a) as [nb|] eqn:G; auto.
    apply well_formed_dset; auto. apply uniq_keys_dset.
    eapply well_formed_dget; eauto. }
  intros W. unfold set_both. auto.
Qed.

Lemma well_formed_remove_place g p :
  well_formed g = true ->
  well_formed (map (fun kv => (fst kv, ddel (snd kv) p)) (ddel g p)) = true.
Proof.
  rewrite !well_formed_iff. intros [U F]. split.
  - unfold keys. rewrite map_map. simpl. now apply uniq_keys_ddel.
  - apply Forall_map. simpl. clear U.
    induction g as [|[k0 v0] g IH]; simpl; [constructor|].
    inversion F; subst. destruct (String.eqb p k0); auto.
    constructor; auto. simpl. now apply uniq_keys_ddel.
Qed.

(** The seed graph is a dictionary of dictionaries, and the four mutations
    of the shell keep the store so. *)
Lemma store_stays_well_formed (g : graph) :
  well_formed seed_graph = true /\
  (well_formed g = true ->
   (forall p typed, well_formed (fst (add_place g p typed)) = true) /\
   (forall c1 c2 d, well_formed (fst (add_route g c1 c2 d)) = true) /\
   (forall c1 c2, well_formed (fst (remove_route g c1 c2)) = true) /\
   (forall c, well_formed (fst (remove_place g c)) = true)).
Proof.
  split; [reflexivity|]. intros W. repeat split.
  - intros p typed. unfold add_place. destruct (dmem g p); auto. simpl.
    assert (W0 : well_formed (dset g p []) = true)
      by now apply well_formed_dset.
    revert W0. generalize (dset g p []). clear.
    induction typed as [|[nb [w|]] typed IH]; simpl; intros g W; auto;
      destruct (dmem g nb); auto using well_formed_set_both.
  - intros c1 c2 d. unfold add_route.
    destruct (select_place g c1), (select_place g c2); auto.
    destruct (falsy _ || falsy _); auto.
    destruct d; auto. now apply well_formed_set_both.
  - intros c1 c2. unfold remove_route.
    destruct (select_place g c1) as [p1|], (select_place g c2) as [p2|]; auto.
    destruct (falsy _ || falsy _); auto.
    destruct (dget g p1) as [nb1|] eqn:G1; auto.
    destruct (dmem nb1 p2); auto.
    assert (W1 : well_formed (dset g p1 (ddel nb1 p2)) = true).
    { apply well_formed_dset; auto. apply uniq_keys_ddel.
      eapply well_formed_dget; eauto. }
    destruct (dget (dset g p1 (ddel nb1 p2)) p2) as [nb2|] eqn:G2; auto.
    destruct (dmem nb2 p1); auto. simpl.
    apply well_formed_dset; auto. apply uniq_keys_ddel.
    eapply well_formed_dget; eauto.
  - intros c. unfold remove_place.
    destruct (select_place g c) as [p|]; auto.
    destruct (falsy _); auto. now apply well_formed_remove_place.
Qed.

(** ** Fuel *)

Lemma bind_Ok {A B : Type} (r : result A) (f : A -> result B) (b : B) :
  bind r f = Ok b -> exists a, r = Ok a /\ f a = Ok b.
Proof. destruct r; simpl; try discriminate. eauto. Qed.

Lemma main_loop_mono g n : forall st r m,
  main_loop n g st = r -> r <> OutOfFuel -> (n <= m)%nat ->
  main_loop m g st = r.
Proof.
  induction n as [|n IH]; intros [[dist prev] q] r m H NE L.
  - simpl in H. congruence.
  - destruct m as [|m]; [lia|]. simpl in *.
    destruct (heappop q) as [[[cd u] q']|]; auto.
    destruct (lookup dist u) as [dc| |]; simpl in *; auto.
    destruct (num_ltb dc (Fin cd)).
    + apply IH; auto. lia.
    + destruct (lookup g u) as [items| |]; simpl in *; auto.
      destruct (relax_all cd u (dist, prev, q') items); simpl in *; auto.
      apply IH; auto. lia.
Qed.

Lemma walk_back_mono prev n : forall cur acc r m,
  walk_back n prev cur acc = r -> r <> OutOfFuel -> (n <= m)%nat ->
  walk_back m prev cur acc = r.
Proof.
  induction n as [|n IH]; intros cur acc r m H NE L.
  - simpl in H. congruence.
  - destruct m as [|m]; [lia|]. simpl in *.
    destruct cur as [c|]; auto.
    destruct (lookup prev c) as [p| |]; simpl in *; auto.
    apply IH; auto. lia.
Qed.

Lemma dijkstra_mono g s e n m r :
  dijkstra_shortest_path n g s e = r -> r <> OutOfFuel -> (n <= m)%nat ->
  dijkstra_shortest_path m g s e = r.
Proof.
  unfold dijkstra_shortest_path. intros H NE L.
  destruct (main_loop n g (init_state g s)) as [[dist prev]| |] eqn:M;
    simpl in H; try congruence.
  - rewrite (main_loop_mono g n _ _ m M) by (auto; discriminate). simpl.
    destruct (walk_back n prev (Some e) []) as [sp| |] eqn:W;
      simpl in H; try congruence.
    + rewrite (walk_back_mono prev n _ _ _ m W) by (auto; discriminate).
      exact H.
    + rewrite (walk_back_mono prev n _ _ _ m W) by (auto; discriminate).
      exact H.
  - rewrite (main_loop_mono g n _ _ m M) by (auto; discriminate). exact H.
Qed.

(** Whatever the fuel, a call has at most one outcome other than running
    out of fuel. *)
Lemma dijkstra_deterministic g s e n m r r' :
  dijkstra_shortest_path n g s e = r -> r <> OutOfFuel ->
  dijkstra_shortest_path m g s e = r' -> r' <> OutOfFuel ->
  r = r'.
Proof.
  intros H NE H' NE'.
  pose proof (dijkstra_mono g s e n (Nat.max n m) r H NE (Nat.le_max_l _ _)).
  pose proof (dijkstra_mono g s e m (Nat.max n m) r' H' NE' (Nat.le_max_r _ _)).
  congruence.
Qed.

(** ** The queries of the spec on the seed graph *)

Lemma seed_jauhar_korangi :
  dijkstra_shortest_path 16 seed_graph "Jauhar" "Korangi" =
  Ok (["Jauhar"; "Malir"; "Korangi"], Fin 11).
Proof. vm_compute. reflexivity. Qed.

Lemma seed_jauhar_defence :
  dijkstra_shortest_path 16 seed_graph "Jauhar" "Defence" =
  Ok (["Jauhar"; "Malir"; "Saddar"; "Clifton"; "Defence"], Fin 25).
Proof. vm_compute. reflexivity. Qed.

(** C2, as stated, fails: with no amount of fuel does the query from Jauhar
    to Korangi return the path through Gulshan with distance 12. *)
Lemma seed_jauhar_korangi_not_12 :
  ~ exists fuel,
      dijkstra_shortest_path fuel seed_graph "Jauhar" "Korangi" =
      Ok (["Jauhar"; "Gulshan"; "Malir"; "Korangi"], Fin 12).
Proof.
  intros [fuel H].
  pose proof (dijkstra_deterministic _ _ _ _ _ _ _ H ltac:(discriminate)
                seed_jauhar_korangi ltac:(discriminate)).
  discriminate.
Qed.

(** C2, amended. On the seed graph the query from Jauhar to Korangi returns
    the path [Jauhar, Malir, Korangi] and the distance 11 (7 + 4), which is
    less than the 12 of the path through Gulshan. *)
Theorem seed_jauhar_korangi_11 :
  (exists n, forall fuel, (n <= fuel)%nat ->
     dijkstra_shortest_path fuel seed_graph "Jauhar" "Korangi" =
     Ok (["Jauhar"; "Malir"; "Korangi"], Fin 11)) /\
  path_weight seed_graph ["Jauhar"; "Malir"; "Korangi"] = Some 11 /\
  path_weight seed_graph ["Jauhar"; "Gulshan"; "Malir"; "Korangi"] = Some 12.
Proof.
  split; [|split; reflexivity].
  exists 16%nat. intros fuel L.
  apply (dijkstra_mono _ _ _ 16); auto using seed_jauhar_korangi.
  discriminate.
Qed.

(** C3, as stated, fails: with no amount of fuel does the query from Jauhar
    to Defence return the distance 21 along the path through Gulshan. *)
Lemma seed_jauhar_defence_not_21 :
  ~ exists fuel,
      dijkstra_shortest_path fuel seed_graph "Jauhar" "Defence" =
      Ok (["Jauhar"; "Gulshan"; "Malir"; "Saddar"; "Clifton"; "Defence"],
          Fin 21).
Proof.
  intros [fuel H].
  pose proof (dijkstra_deterministic _ _ _ _ _ _ _ H ltac:(discriminate)
                seed_jauhar_defence ltac:(discriminate)).
  discriminate.
Qed.

(** C3, amended. On the seed graph the query from Jauhar to Defence returns
    the distance 25 along [Jauhar, Malir, Saddar, Clifton, Defence]
    (7 + 8 + 6 + 4); the path through Gulshan weighs 26. *)
Theorem seed_jauhar_defence_25 :
  (exists n, forall fuel, (n <= fuel)%nat ->
     dijkstra_shortest_path fuel seed_graph "Jauhar" "Defence" =
     Ok (["Jauhar"; "Malir"; "Saddar"; "Clifton"; "Defence"], Fin 25)) /\
  path_weight seed_graph
    ["Jauhar"; "Malir"; "Saddar"; "Clifton"; "Defence"] = Some 25 /\
  path_weight seed_graph
    ["Jauhar"; "Gulshan"; "Malir"; "Saddar"; "Clifton"; "Defence"] = Some 26.
Proof.
  split; [|split; reflexivity].
  exists 16%nat. intros fuel L.
  apply (dijkstra_mono _ _ _ 16); auto using seed_jauhar_defence.
  discriminate.
Qed.

(** ** add_route and the sign of the weight *)

(** C5, as stated, fails: a route of weight -3 between Jauhar and Gulshan is
    accepted and written in both directions. *)
Lemma add_route_accepts_negative :
  let r := add_route seed_graph (Some 1) (Some 2) (Some (-3)) in
  snd r = RouteUpdated /\
  fst r <> seed_graph /\
  weight_of (fst r) "Jauhar" "Gulshan" = Some (-3) /\
  weight_of (fst r) "Gulshan" "Jauhar" = Some (-3).
Proof. vm_compute. repeat split. discriminate. Qed.

(** C5, amended. For two places picked from the menu whose names are not
    the empty string, and any weight typed, negative or not, [add_route]
    writes the weight in both directions and reports the update; the graph
    is left as it was only when what was typed is not a number. When one of
    the places picked is the place named by the empty string, [add_route]
    returns at [if not place1 or not place2] and writes nothing. *)
Theorem add_route_any_weight (g : graph) (c1 c2 : option Z) (p1 p2 : string) :
  select_place g c1 = Some p1 -> select_place g c2 = Some p2 ->
  if String.eqb p1 "" || String.eqb p2 ""
  then forall distance, add_route g c1 c2 distance = (g, Cancelled)
  else
    (forall w,
       let r := add_route g c1 c2 (Some w) in
       snd r = RouteUpdated /\
       weight_of (fst r) p1 p2 = Some w /\
       weight_of (fst r) p2 p1 = Some w) /\
    add_route g c1 c2 None = (g, InvalidDistance).
Proof.
  intros E1 E2. unfold add_route. rewrite E1, E2. cbn [falsy].
  destruct (String.eqb p1 "" || String.eqb p2 ""); [reflexivity|].
  split; [|reflexivity]. intros w. simpl.
  apply select_place_key in E1, E2. apply dmem_true in E1, E2.
  rewrite !weight_of_set_both by assumption.
  rewrite !String.eqb_refl. simpl. rewrite orb_true_r. auto.
Qed.

Lemma add_route_any_weight_witness :
  ((forall w,
      let r := add_route seed_graph (Some 1) (Some 2) (Some w) in
      snd r = RouteUpdated /\
      weight_of (fst r) "Jauhar" "Gulshan" = Some w /\
      weight_of (fst r) "Gulshan" "Jauhar" = Some w) /\
   add_route seed_graph (Some 1) (Some 2) None =
     (seed_graph, InvalidDistance)) /\
  (forall distance,
     add_route unnamed_graph (Some 8) (Some 1) distance =
     (unnamed_graph, Cancelled)).
Proof.
  split.
  - exact (add_route_any_weight seed_graph (Some 1) (Some 2)
             "Jauhar" "Gulshan" eq_refl eq_refl).
  - exact (add_route_any_weight unnamed_graph (Some 8) (Some 1)
             "" "Jauhar" eq_refl eq_refl).
Defined.

(** ** The priority queue *)

Lemma In_heappush q x y : In y (heappush q x) <-> y = x \/ In y q.
Proof.
  induction q as [|z q IH]; simpl.
  - intuition.
  - destruct (entry_leb x z); simpl; rewrite ?IH; intuition.
Qed.

Lemma length_heappush q x :
  List.length (heappush q x) = S (List.length q).
Proof.
  induction q as [|z q IH]; simpl; auto.
  destruct (entry_leb x z); simpl; auto.
Qed.

Lemma ascii_compare_trans a b c :
  Ascii.compare a b <> Gt -> Ascii.compare b c <> Gt ->
  Ascii.compare a c <> Gt /\
  (Ascii.compare a c = Eq -> Ascii.compare a b = Eq /\ Ascii.compare b c = Eq).
Proof.
  unfold Ascii.compare. intros H1 H2.
  destruct (N.compare_spec (N_of_ascii a) (N_of_ascii b)); try congruence;
  destruct (N.compare_spec (N_of_ascii b) (N_of_ascii c)); try congruence;
  destruct (N.compare_spec (N_of_ascii a) (N_of_ascii c));
    (split;
     [ first [congruence | exfalso; lia]
     | intros; first [discriminate | now split | exfalso; lia] ]).
Qed.

Lemma string_leb_trans : forall a b c,
  String.leb a b = true -> String.leb b c = true -> String.leb a c = true.
Proof.
  unfold String.leb.
  induction a as [|x a IH]; intros [|y b] [|z c]; simpl; try congruence.
  intros H1 H2.
  assert (A : Ascii.compare x y <> Gt)
    by (destruct (Ascii.compare x y); congruence).
  assert (B : Ascii.compare y z <> Gt)
    by (destruct (Ascii.compare y z); congruence).
  destruct (ascii_compare_trans x y z A B) as [C D].
  destruct (Ascii.compare x z) eqn:E; try congruence.
  destruct (D eq_refl) as [D1 D2]. rewrite D1 in H1. rewrite D2 in H2.
  now apply (IH b c).
Qed.

Lemma entry_leb_trans a b c :
  entry_leb a b = true -> entry_leb b c = true -> entry_leb a c = true.
Proof.
  unfold entry_leb. destruct a as [d1 n1], b as [d2 n2], c as [d3 n3]. simpl.
  rewrite !orb_true_iff, !andb_true_iff, !Z.ltb_lt, !Z.eqb_eq.
  intros [H1 | [H1 L1]] [H2 | [H2 L2]]; try (left; lia).
  right. split; [lia|]. eapply string_leb_trans; eauto.
Qed.

Lemma entry_leb_total a b : entry_leb a b = true \/ entry_leb b a = true.
Proof.
  unfold entry_leb. destruct a as [d1 n1], b as [d2 n2]. simpl.
  rewrite !orb_true_iff, !andb_true_iff, !Z.ltb_lt, !Z.eqb_eq.
  destruct (Z.lt_trichotomy d1 d2) as [H | [H | H]]; auto.
  destruct (String.leb_total n1 n2); auto.
Qed.

(** The contract of [heapq]: pushing keeps the queue sorted, and what is
    popped is below everything that stays. *)
Lemma heappush_sorted q x : sorted_queue q -> sorted_queue (heappush q x).
Proof.
  unfold sorted_queue. induction q as [|y q IH]; simpl; intros S.
  - repeat constructor.
  - inversion S as [|? ? Sq Hy]; subst. destruct (entry_leb x y) eqn:E.
    + constructor; auto. constructor; auto.
      rewrite Forall_forall in *. intros z Hz. eapply entry_leb_trans; eauto.
    + constructor; auto. rewrite Forall_forall in *. intros z Hz.
      apply In_heappush in Hz. destruct Hz as [-> | I]; auto.
      destruct (entry_leb_total x y); congruence.
Qed.

Lemma heappop_least q x q' :
  sorted_queue q -> heappop q = Some (x, q') ->
  sorted_queue q' /\ Forall (fun y => entry_leb x y = true) q'.
Proof.
  unfold sorted_queue, heappop. intros S H. destruct q as [|y q]; [discriminate|].
  inversion H; subst. inversion S; subst. auto.
Qed.

(** ** The loops, step by step *)

Lemma lookup_Ok {V : Type} (m : dict V) k v :
  lookup m k = Ok v <-> dget m k = Some v.
Proof.
  unfold lookup. destruct (dget m k); split; congruence.
Qed.

(** The two ways [relax] returns: the neighbor is improved, or left. *)
Lemma relax_cases cd u dist prev q v w st' :
  relax cd u (dist, prev, q) (v, w) = Ok st' ->
  exists dv, dget dist v = Some dv /\
    ((num_ltb (Fin (cd + w)) dv = true /\
      st' = (dset dist v (Fin (cd + w)), dset prev v (Some u),
             heappush q (cd + w, v))) \/
     (num_ltb (Fin (cd + w)) dv = false /\ st' = (dist, prev, q))).
Proof.
  unfold relax, lookup. destruct (dget dist v) as [dv|]; simpl; [|discriminate].
  intros H. exists dv. split; auto.
  destruct (num_ltb (Fin (cd + w)) dv); inversion H; subst; [left|right]; auto.
Qed.

(** Invariant rule of the [for] loop. *)
Lemma relax_all_rule (P : distances * previous * list (Z * string) -> Prop)
    cd u items :
  (forall st nw st', In nw items -> P st -> relax cd u st nw = Ok st' ->
                     P st') ->
  forall st st', P st -> relax_all cd u st items = Ok st' -> P st'.
Proof.
  induction items as [|nw items IH]; simpl; intros Step st st' HP H.
  - now inversion H; subst.
  - apply bind_Ok in H. destruct H as (st1 & R & H).
    apply (IH (fun st nw st' I => Step st nw st' (or_intror I)) st1); auto.
    apply (Step st nw); auto.
Qed.

(** Invariant rule of the [while queue] loop. *)
Lemma main_loop_rule (P : distances * previous * list (Z * string) -> Prop) g :
  (forall dist prev cd u q dc,
     P (dist, prev, (cd, u) :: q) -> dget dist u = Some dc ->
     num_ltb dc (Fin cd) = true -> P (dist, prev, q)) ->
  (forall dist prev cd u q dc (items : dict Z) st',
     P (dist, prev, (cd, u) :: q) -> dget dist u = Some dc ->
     num_ltb dc (Fin cd) = false -> dget g u = Some items ->
     relax_all cd u (dist, prev, q) items = Ok st' -> P st') ->
  forall n st dist prev,
    P st -> main_loop n g st = Ok (dist, prev) -> P (dist, prev, []).
Proof.
  intros Stale Fresh. induction n as [|n IH]; intros [[d p] q] dist prev HP H.
  - discriminate.
  - simpl in H. destruct q as [|[cd u] q]; simpl in H.
    + now inversion H; subst.
    + apply bind_Ok in H. destruct H as (dc & L & H). apply lookup_Ok in L.
      destruct (num_ltb dc (Fin cd)) eqn:C.
      * apply (IH (d, p, q)); eauto.
      * apply bind_Ok in H. destruct H as (items & G & H).
        apply lookup_Ok in G.
        apply bind_Ok in H. destruct H as (st' & R & H).
        apply (IH st'); eauto.
Qed.

Lemma relax_all_sorted cd u items st st' :
  sorted_queue (snd st) -> relax_all cd u st items = Ok st' ->
  sorted_queue (snd st').
Proof.
  apply (relax_all_rule (fun st => sorted_queue (snd st))).
  intros [[dist prev] q] [v w] st1 _ S R. apply relax_cases in R.
  destruct R as (dv & _ & [[_ ->] | [_ ->]]); auto.
  now apply heappush_sorted.
Qed.

(** ** No lookup of a missing key *)

Lemma dget_map_const {V W : Type} (c : W) (m : dict V) k :
  dget (map (fun kv => (fst kv, c)) m) k = option_map (fun _ => c) (dget m k).
Proof.
  induction m as [|[k0 v0] m IH]; simpl; auto.
  destruct (String.eqb k k0); auto.
Qed.

Lemma closed_spec g u items v w :
  closed g = true -> dget g u = Some items -> In (v, w) items ->
  In v (keys g).
Proof.
  unfold closed. intros C G I. apply dget_In in G.
  rewrite forallb_forall in C. specialize (C _ G). simpl in C.
  rewrite forallb_forall in C. specialize (C _ I). simpl in C.
  apply dmem_true in C. destruct C as [nb C]. eapply dget_keys; eauto.
Qed.

Section Keys.
Variable g : dict (dict Z).

Lemma init_keys_ok s : In s (keys g) -> keys_ok g (init_state g s).
Proof.
  intros Hs. unfold init_state, keys_ok. repeat split.
  - intros k Hk. rewrite dget_dset. destruct (String.eqb k s); [discriminate|].
    rewrite dget_map_const. apply In_keys_dget in Hk. destruct Hk as [v ->].
    discriminate.
  - intros k Hk. rewrite dget_map_const. apply In_keys_dget in Hk.
    destruct Hk as [v ->]. discriminate.
  - simpl. intros d x [E | []]. now inversion E; subst.
  - intros v u. rewrite dget_map_const. destruct (dget g v); discriminate.
Qed.

Lemma relax_keys cd u v w st :
  keys_ok g st -> In u (keys g) -> In v (keys g) ->
  exists st', relax cd u st (v, w) = Ok st' /\ keys_ok g st'.
Proof.
  destruct st as [[dist prev] q]. intros (Kd & Kp & Kq & Kv) Hu Hv.
  unfold relax, lookup. destruct (dget dist v) as [dv|] eqn:E.
  2:{ now apply Kd in Hv. }
  cbn [bind]. destruct (num_ltb (Fin (cd + w)) dv).
  - eexists. split; [reflexivity|]. repeat split.
    + intros k Hk. rewrite dget_dset. destruct (String.eqb k v); auto.
      discriminate.
    + intros k Hk. rewrite dget_dset. destruct (String.eqb k v); auto.
      discriminate.
    + intros d x I. apply In_heappush in I. destruct I as [I | I]; eauto.
      now inversion I; subst.
    + intros y z. rewrite dget_dset. destruct (String.eqb y v); eauto.
      now intros [= <-].
  - eexists. split; [reflexivity|]. repeat split; auto.
Qed.

Lemma relax_all_keys cd u items : forall st,
  keys_ok g st -> In u (keys g) ->
  (forall v w, In (v, w) items -> In v (keys g)) ->
  exists st', relax_all cd u st items = Ok st' /\ keys_ok g st'.
Proof.
  induction items as [|[v w] items IH]; simpl; intros st K Hu Hi.
  - eauto.
  - destruct (relax_keys cd u v w st K Hu) as (st1 & R & K1); eauto.
    rewrite R. cbn [bind]. apply IH; eauto.
Qed.

Hypothesis Hclosed : closed g = true.

Lemma main_loop_no_KeyError n : forall st k,
  keys_ok g st -> main_loop n g st <> KeyError k.
Proof.
  induction n as [|n IH]; intros [[dist prev] q] k K; simpl; [discriminate|].
  destruct q as [|[cd u] q]; simpl; [discriminate|].
  pose proof K as (Kd & Kp & Kq & Kv).
  assert (Hu : In u (keys g)) by (eapply Kq; now left).
  assert (K' : keys_ok g (dist, prev, q)).
  { repeat split; auto. intros d x I. eapply Kq. right. eauto. }
  unfold lookup at 1. destruct (dget dist u) as [dc|] eqn:E.
  2:{ now apply Kd in Hu. }
  cbn [bind]. destruct (num_ltb dc (Fin cd)); [now apply IH|].
  unfold lookup. destruct (In_keys_dget _ _ Hu) as [items G]. rewrite G.
  cbn [bind].
  destruct (relax_all_keys cd u items _ K' Hu) as (st' & R & K1).
  { intros v w I. eapply closed_spec; eauto. }
  rewrite R. cbn [bind]. now apply IH.
Qed.

Lemma main_loop_keys_ok n st dist prev :
  keys_ok g st -> main_loop n g st = Ok (dist, prev) ->
  keys_ok g (dist, prev, []).
Proof.
  apply (main_loop_rule (keys_ok g) g).
  - intros d p cd u q dc (Kd & Kp & Kq & Kv) _ _. repeat split; auto.
    intros d' x I. eapply Kq. right. eauto.
  - intros d p cd u q dc items st' K _ _ G R.
    pose proof K as (Kd & Kp & Kq & Kv).
    assert (Hu : In u (keys g)) by (eapply Kq; now left).
    assert (K' : keys_ok g (d, p, q)).
    { repeat split; auto. intros d' x I. eapply Kq. right. eauto. }
    destruct (relax_all_keys cd u items _ K' Hu) as (st1 & R1 & K1).
    { intros v w I. eapply closed_spec; eauto. }
    congruence.
Qed.

Lemma walk_back_no_KeyError prev n : forall cur acc k,
  (forall c, cur = Some c -> In c (keys g)) ->
  (forall c, In c (keys g) -> dget prev c <> None) ->
  (forall v u, dget prev v = Some (Some u) -> In u (keys g)) ->
  walk_back n prev cur acc <> KeyError k.
Proof.
  induction n as [|n IH]; intros cur acc k Hc Kp Kv; simpl; [discriminate|].
  destruct cur as [c|]; [|discriminate].
  unfold lookup. destruct (dget prev c) as [p|] eqn:E.
  - cbn [bind]. apply IH; auto. intros c' ->. eauto.
  - exfalso. apply (Kp c); auto.
Qed.

Lemma dijkstra_no_KeyError n s e k :
  In s (keys g) -> In e (keys g) ->
  dijkstra_shortest_path n g s e <> KeyError k.
Proof.
  intros Hs He. unfold dijkstra_shortest_path.
  destruct (main_loop n g (init_state g s)) as [[dist prev]| |] eqn:M;
    cbn [bind]; try discriminate.
  - apply main_loop_keys_ok in M; [|now apply init_keys_ok].
    destruct M as (Kd & Kp & _ & Kv).
    destruct (walk_back n prev (Some e) []) as [sp| |] eqn:W;
      cbn [bind]; try discriminate.
    + unfold lookup. destruct (dget dist e) eqn:E; [discriminate|].
      now apply Kd in He.
    + exfalso. revert W. apply walk_back_no_KeyError; auto.
      now intros c [= <-].
  - exfalso. revert M. apply main_loop_no_KeyError. now apply init_keys_ok.
Qed.

End Keys.

(** C9. In a graph with closed neighbor references, a query between two
    places of the graph never looks up a missing key: no lookup of
    [graph[current_node]], [distances[current_node]], [distances[neighbor]]
    or [previous_nodes[current]] raises [KeyError], however long the loops
    run. *)
Theorem no_missing_key (g : graph) (start end_ : string) :
  closed g = true -> dmem g start = true -> dmem g end_ = true ->
  forall fuel k, dijkstra_shortest_path fuel g start end_ <> KeyError k.
Proof.
  intros C Hs He fuel k.
  apply dijkstra_no_KeyError; auto; now apply dmem_keys.
Qed.

Lemma no_missing_key_witness :
  ~ exists fuel k,
      dijkstra_shortest_path fuel seed_graph "Jauhar" "Defence" = KeyError k.
Proof.
  intros (fuel & k & H). revert H.
  apply (no_missing_key seed_graph "Jauhar" "Defence"); reflexivity.
Defined.

(** ** Termination of the [while queue] loop *)

Lemma nonneg_spec g u items v w :
  nonneg g = true -> dget g u = Some items -> In (v, w) items -> 0 <= w.
Proof.
  unfold nonneg. intros N G I. apply dget_In in G.
  rewrite forallb_forall in N. specialize (N _ G). simpl in N.
  rewrite forallb_forall in N. specialize (N _ I). simpl in N. lia.
Qed.

Lemma measure_dset_inf dist v d :
  dget dist v = Some Inf ->
  S (count_inf (dset dist v (Fin d))) = count_inf dist.
Proof.
  unfold count_inf. induction dist as [|[k x] dist IH]; simpl; [discriminate|].
  destruct (String.eqb_spec v k); subst; simpl.
  - intros [= ->]. reflexivity.
  - intros H. destruct x; simpl; auto.
Qed.

Lemma measure_dset_fin dist v d0 d :
  dget dist v = Some (Fin d0) ->
  count_inf (dset dist v (Fin d)) = count_inf dist /\
  (fin_total (dset dist v (Fin d)) + Z.to_nat d0 =
   fin_total dist + Z.to_nat d)%nat.
Proof.
  unfold count_inf. induction dist as [|[k x] dist IH]; simpl; [discriminate|].
  destruct (String.eqb_spec v k); subst; simpl.
  - intros [= ->]. simpl. split; auto. lia.
  - intros H. destruct (IH H) as [A B]. destruct x; simpl; split; auto; lia.
Qed.

Lemma improved_trans d1 d2 d3 : improved d1 d2 -> improved d2 d3 -> improved d1 d3.
Proof. unfold improved. lia. Qed.

Lemma relax_measure cd u dist prev q v w dist' prev' q' :
  relax cd u (dist, prev, q) (v, w) = Ok (dist', prev', q') ->
  0 <= cd -> 0 <= w -> queue_nonneg q ->
  queue_nonneg q' /\ ((dist' = dist /\ q' = q) \/ improved dist' dist).
Proof.
  intros R Hcd Hw Q. apply relax_cases in R.
  destruct R as (dv & E & [[L R] | [L R]]); inversion R; subst; clear R.
  - split.
    + intros d x I. apply In_heappush in I. destruct I as [I | I]; eauto.
      inversion I; subst. lia.
    + right. destruct dv as [d0|].
      * destruct (measure_dset_fin dist v d0 (cd + w) E) as [A B].
        right. split; auto. unfold num_ltb in L. apply Z.ltb_lt in L. lia.
      * left. pose proof (measure_dset_inf dist v (cd + w) E). lia.
  - auto.
Qed.

Lemma relax_all_measure cd u items : forall dist prev q dist' prev' q',
  relax_all cd u (dist, prev, q) items = Ok (dist', prev', q') ->
  0 <= cd -> (forall v w, In (v, w) items -> 0 <= w) -> queue_nonneg q ->
  queue_nonneg q' /\ ((dist' = dist /\ q' = q) \/ improved dist' dist).
Proof.
  induction items as [|[v w] items IH]; simpl;
    intros dist prev q dist' prev' q' R Hcd Hw Q.
  - inversion R; subst. auto.
  - apply bind_Ok in R. destruct R as ([[d1 p1] q1] & R1 & R).
    apply relax_measure in R1; auto. 2:{ apply (Hw v). now left. }
    destruct R1 as [Q1 M1].
    apply IH in R; auto. 2:{ intros v' w' I. apply (Hw v'). now right. }
    destruct R as [Q2 M2]. split; auto.
    destruct M1 as [[-> ->] | M1]; auto.
    destruct M2 as [[-> ->] | M2]; auto.
    right. eapply improved_trans; eauto.
Qed.

Lemma relax_not_OutOfFuel cd u st nw : relax cd u st nw <> OutOfFuel.
Proof.
  destruct st as [[dist prev] q], nw as [v w]. unfold relax, lookup.
  destruct (dget dist v) as [dv|]; cbn [bind]; [|discriminate].
  destruct (num_ltb _ _); discriminate.
Qed.

Lemma relax_all_not_OutOfFuel cd u items : forall st,
  relax_all cd u st items <> OutOfFuel.
Proof.
  induction items as [|nw items IH]; simpl; intros st; [discriminate|].
  pose proof (relax_not_OutOfFuel cd u st nw).
  destruct (relax cd u st nw); cbn [bind]; auto; discriminate.
Qed.

Lemma main_loop_terminates g :
  nonneg g = true ->
  forall a b c dist prev q,
    count_inf dist = a -> fin_total dist = b -> List.length q = c ->
    queue_nonneg q ->
    exists n, main_loop n g (dist, prev, q) <> OutOfFuel.
Proof.
  intros N.
  induction a as [a IHa] using lt_wf_ind.
  induction b as [b IHb] using lt_wf_ind.
  induction c as [c IHc] using lt_wf_ind.
  intros dist prev q Ea Eb Ec Q.
  destruct q as [|[cd u] q].
  { exists 1%nat. discriminate. }
  assert (Q' : queue_nonneg q) by (intros d x I; apply (Q d x); now right).
  assert (Hcd : 0 <= cd) by (apply (Q cd u); now left).
  destruct (dget dist u) as [dc|] eqn:E.
  2:{ exists 1%nat. simpl. unfold lookup. rewrite E. discriminate. }
  destruct (num_ltb dc (Fin cd)) eqn:C.
  { destruct (IHc (List.length q)) with (dist := dist) (prev := prev) (q := q)
      as [n Hn]; auto.
    { simpl in Ec. lia. }
    exists (S n). simpl. unfold lookup. rewrite E. cbn [bind]. now rewrite C. }
  destruct (dget g u) as [items|] eqn:G.
  2:{ exists 1%nat. simpl. unfold lookup. rewrite E. cbn [bind].
      rewrite C, G. discriminate. }
  destruct (relax_all cd u (dist, prev, q) items) as [[[d1 p1] q1]| |] eqn:R.
  - destruct (relax_all_measure _ _ _ _ _ _ _ _ _ R Hcd) as [Q1 M]; auto.
    { intros v w I. eapply nonneg_spec; eauto. }
    assert (exists n, main_loop n g (d1, p1, q1) <> OutOfFuel) as [n Hn].
    { destruct M as [[-> ->] | [M | [M1 M2]]].
      - apply (IHc (List.length q)); auto. simpl in Ec. lia.
      - apply (IHa (count_inf d1)) with (b := fin_total d1)
          (c := List.length q1); auto. lia.
      - apply (IHb (fin_total d1)) with (c := List.length q1); auto; lia. }
    exists (S n). simpl. unfold lookup. rewrite E. cbn [bind].
    rewrite C, G. cbn [bind]. now rewrite R.
  - exists 1%nat. simpl. unfold lookup. rewrite E. cbn [bind].
    rewrite C, G. cbn [bind]. rewrite R. discriminate.
  - exfalso. revert R. apply relax_all_not_OutOfFuel.
Qed.

(** ** The predecessors form a forest *)

Lemma num_ltb_Fin a b : num_ltb (Fin a) (Fin b) = (a <? b).
Proof. reflexivity. Qed.

Lemma lookup_above (dist : distances) v dv a b :
  dget dist v = Some dv -> num_ltb (Fin a) dv = true ->
  dget dist v = Some (Fin b) -> a < b.
Proof.
  intros E L E'. rewrite E in E'. inversion E'; subst. now apply Z.ltb_lt.
Qed.

Section Forest.
Variable s : string.

Lemma init_tree_ok (g : graph) : tree_ok s (init_state g s).
Proof.
  unfold init_state, tree_ok. simpl.
  assert (P : forall v u,
            dget (map (fun kv : string * dict Z => (fst kv, @None string)) g)
              v <> Some (Some u)).
  { intros v u. rewrite dget_map_const. destruct (dget g v); discriminate. }
  repeat split.
  - intros d x [E | []]. inversion E; lia.
  - intros d x [E | []]. inversion E; subst. exists 0.
    rewrite dget_dset_same. split; auto. lia.
  - apply dget_dset_same.
  - intros [u|] H; auto. now apply P in H.
  - intros v u H. now apply P in H.
  - intros [c|]; [|constructor].
    destruct (dget (map (fun kv : string * dict Z => (fst kv, @None string)) g) c)
      as [[u|]|] eqn:E.
    + now apply P in E.
    + eapply ends_next; eauto. constructor.
    + now apply ends_missing.
Qed.

(** A place at distance at most [cd] does not walk back through a place
    that is farther than [cd]. *)
Lemma ends_below dist prev cd v u dv :
  (forall y z, dget prev y = Some (Some z) ->
     exists dz dy, dget dist z = Some (Fin dz) /\
                   dget dist y = Some (Fin dy) /\ dz <= dy) ->
  dget dist v = Some dv -> num_ltb (Fin cd) dv = true ->
  forall c, ends prev c ->
    (forall x, c = Some x ->
       exists dx, dget dist x = Some (Fin dx) /\ dx <= cd) ->
    ends (dset prev v (Some u)) c.
Proof.
  intros J Ev L c E. induction E as [|c M|c p M E IH]; intros B.
  - constructor.
  - destruct (B c eq_refl) as (dx & Dx & Lx).
    assert (c <> v).
    { intros ->. pose proof (lookup_above _ _ _ _ _ Ev L Dx). lia. }
    apply ends_missing. now rewrite dget_dset_other.
  - destruct (B c eq_refl) as (dx & Dx & Lx).
    assert (c <> v).
    { intros ->. pose proof (lookup_above _ _ _ _ _ Ev L Dx). lia. }
    apply ends_next with (p := p); [now rewrite dget_dset_other|].
    apply IH. intros x ->. destruct (J _ _ M) as (dz & dy & Dz & Dy & Lz).
    exists dz. split; auto. rewrite Dx in Dy. inversion Dy; subst. lia.
Qed.

Lemma ends_redirect prev v p :
  ends (dset prev v p) (Some v) ->
  forall c, ends prev c -> ends (dset prev v p) c.
Proof.
  intros Hv c E. induction E as [|c M|c p' M E IH].
  - constructor.
  - destruct (String.eqb_spec c v); subst; auto.
    apply ends_missing. now rewrite dget_dset_other.
  - destruct (String.eqb_spec c v); subst; auto.
    apply ends_next with (p := p'); auto. now rewrite dget_dset_other.
Qed.

Lemma relax_tree_ok cd u st v w st' :
  0 <= cd -> 0 <= w ->
  tree_ok s st /\ dget (fst (fst st)) u = Some (Fin cd) ->
  relax cd u st (v, w) = Ok st' ->
  tree_ok s st' /\ dget (fst (fst st')) u = Some (Fin cd).
Proof.
  destruct st as [[dist prev] q]. simpl.
  intros Hcd Hw [(Qn & Q9 & Ds & Ps & J & E) Du] R.
  apply relax_cases in R.
  destruct R as (dv & Ev & [[L ->] | [L ->]]); simpl.
  2:{ repeat split; auto. }
  assert (Nu : v <> u).
  { intros ->. rewrite Du in Ev. inversion Ev; subst.
    rewrite num_ltb_Fin in L. apply Z.ltb_lt in L. lia. }
  assert (Ns : v <> s).
  { intros ->. rewrite Ds in Ev. inversion Ev; subst.
    rewrite num_ltb_Fin in L. apply Z.ltb_lt in L. lia. }
  assert (Nu' : u <> v) by congruence.
  assert (Ns' : s <> v) by congruence.
  assert (Lcd : num_ltb (Fin cd) dv = true).
  { destruct dv as [b|]; auto. rewrite num_ltb_Fin in *.
    apply Z.ltb_lt in L. apply Z.ltb_lt. lia. }
  split; [|now rewrite dget_dset_other].
  repeat split.
  - intros d x I. apply In_heappush in I. destruct I as [I | I]; eauto.
    inversion I; lia.
  - intros d x I. apply In_heappush in I. destruct I as [I | I].
    + inversion I; subst. exists (cd + w). rewrite dget_dset_same.
      split; auto. lia.
    + destruct (Q9 _ _ I) as (d' & D' & L').
      destruct (String.eqb_spec x v); subst.
      * exists (cd + w). rewrite dget_dset_same. split; auto.
        pose proof (lookup_above _ _ _ _ _ Ev L D'). lia.
      * exists d'. now rewrite dget_dset_other.
  - now rewrite dget_dset_other.
  - intros p. rewrite dget_dset_other by assumption. apply Ps.
  - intros y z. rewrite dget_dset.
    destruct (String.eqb_spec y v); subst.
    + intros [= <-]. exists cd, (cd + w).
      rewrite dget_dset_other, dget_dset_same by assumption.
      repeat split; auto. lia.
    + intros H. destruct (J _ _ H) as (dz & dy & Dz & Dy & Lz).
      rewrite (dget_dset_other dist v _ y) by assumption.
      destruct (String.eqb_spec z v); subst.
      * exists (cd + w), dy. rewrite dget_dset_same.
        repeat split; auto.
        pose proof (lookup_above _ _ _ _ _ Ev L Dz). lia.
      * exists dz, dy. now rewrite dget_dset_other.
  - intros c. apply ends_redirect; auto.
    apply ends_next with (p := Some u); [apply dget_dset_same|].
    eapply ends_below; eauto.
    intros x [= <-]. exists cd. split; auto. lia.
Qed.

Lemma relax_all_tree_ok cd u items st st' :
  0 <= cd -> (forall v w, In (v, w) items -> 0 <= w) ->
  tree_ok s st /\ dget (fst (fst st)) u = Some (Fin cd) ->
  relax_all cd u st items = Ok st' ->
  tree_ok s st' /\ dget (fst (fst st')) u = Some (Fin cd).
Proof.
  intros Hcd Hw.
  apply (relax_all_rule
           (fun st => tree_ok s st /\ dget (fst (fst st)) u = Some (Fin cd))).
  intros st0 [v w] st1 I H R.
  apply (relax_tree_ok cd u st0 v w st1); auto. now apply (Hw v).
Qed.

Lemma main_loop_tree_ok g n st dist prev :
  nonneg g = true ->
  tree_ok s st -> main_loop n g st = Ok (dist, prev) ->
  tree_ok s (dist, prev, []).
Proof.
  intros N. apply (main_loop_rule (tree_ok s) g).
  - intros d p cd u q dc (Qn & Q9 & Ds & Ps & J & E) _ _.
    repeat split; auto.
    + intros d' x I. apply (Qn d' x). now right.
    + intros d' x I. apply Q9. now right.
  - intros d p cd u q dc items st' (Qn & Q9 & Ds & Ps & J & E) Du C G R.
    assert (Hcd : 0 <= cd) by (apply (Qn cd u); now left).
    destruct (Q9 cd u (or_introl eq_refl)) as (d' & D' & L').
    rewrite Du in D'. inversion D'; subst.
    rewrite num_ltb_Fin in C. apply Z.ltb_ge in C.
    assert (d' = cd) as -> by lia.
    eapply relax_all_tree_ok in R; eauto.
    + tauto.
    + intros v w I. eapply nonneg_spec; eauto.
    + simpl. split; auto. repeat split; auto.
      * intros d'' x I. apply (Qn d'' x). now right.
      * intros d'' x I. apply Q9. now right.
Qed.

End Forest.

Lemma ends_walk_back prev c :
  ends prev c -> exists n, forall acc, walk_back n prev c acc <> OutOfFuel.
Proof.
  intros E. induction E as [|c M|c p M E [n IH]].
  - exists 1%nat. discriminate.
  - exists 1%nat. intros acc. simpl. unfold lookup. rewrite M. discriminate.
  - exists (S n). intros acc. simpl. unfold lookup. rewrite M. apply IH.
Qed.

(** ** Walks and paths *)

Lemma weight_of_nonneg g u v w :
  nonneg g = true -> weight_of g u v = Some w -> 0 <= w.
Proof.
  unfold weight_of. intros N H. destruct (dget g u) as [nb|] eqn:G;
    [|discriminate].
  apply dget_In in H. eapply nonneg_spec; eauto.
Qed.

Lemma well_formed_spec g u items v w :
  well_formed g = true -> dget g u = Some items -> In (v, w) items ->
  weight_of g u v = Some w.
Proof.
  unfold well_formed, weight_of. intros W G I. rewrite G.
  apply andb_prop in W. destruct W as [_ W]. apply dget_In in G.
  rewrite forallb_forall in W. specialize (W _ G). simpl in W.
  now apply uniq_In_dget.
Qed.

Lemma last_default (p : list string) a b : p <> [] -> last p a = last p b.
Proof.
  induction p as [|x p IH]; [congruence|]. intros _.
  destruct p as [|y p]; auto. simpl in *. apply IH. discriminate.
Qed.

Lemma last_app_cons (l1 : list string) u l2 a b :
  last (l1 ++ u :: l2) a = last (u :: l2) b.
Proof.
  induction l1 as [|x l1 IH].
  - apply last_default. discriminate.
  - change ((x :: l1) ++ u :: l2) with (x :: (l1 ++ u :: l2)).
    destruct (l1 ++ u :: l2) eqn:E; [now destruct l1|].
    rewrite <- IH. reflexivity.
Qed.

Lemma path_weight_cons g u v r :
  path_weight g (u :: v :: r) =
  match weight_of g u v, path_weight g (v :: r) with
  | Some w, Some d => Some (w + d)
  | _, _ => None
  end.
Proof. reflexivity. Qed.

Lemma walk_cons g u v e w d :
  weight_of g u v = Some w -> walk g v e d -> walk g u e (w + d).
Proof.
  intros W H. induction H as [|x y d w' H IH W'].
  - replace (w + 0) with (0 + w) by lia. eapply walk_step; eauto. constructor.
  - replace (w + (d + w')) with (w + d + w') by lia. eapply walk_step; eauto.
Qed.

Lemma path_walk g : forall p u e d,
  is_path g u e p d -> walk g u e d.
Proof.
  induction p as [|x p IH]; intros u e d (H & L & W); [discriminate|].
  simpl in H. inversion H; subst x. destruct p as [|v r].
  - simpl in *. inversion W; subst. constructor.
  - rewrite path_weight_cons in W.
    destruct (weight_of g u v) as [w|] eqn:E; [|discriminate].
    destruct (path_weight g (v :: r)) as [d'|] eqn:P; [|discriminate].
    inversion W; subst. eapply walk_cons; eauto. apply IH.
    repeat split; auto.
    change (last (u :: v :: r) u) with (last (v :: r) u).
    apply last_default. discriminate.
Qed.

Lemma path_weight_snoc g x w : forall p u v d,
  hd_error p = Some u -> last p u = v -> path_weight g p = Some d ->
  weight_of g v x = Some w ->
  path_weight g (p ++ [x]) = Some (d + w).
Proof.
  induction p as [|y p IH]; intros u v d H L P W; [discriminate|].
  simpl in H. inversion H; subst y. subst v. destruct p as [|z r].
  - simpl in *. inversion P; subst. rewrite W. f_equal. lia.
  - rewrite path_weight_cons in P.
    destruct (weight_of g u z) as [w0|] eqn:E; [|discriminate].
    destruct (path_weight g (z :: r)) as [d'|] eqn:P'; [|discriminate].
    inversion P; subst.
    change ((u :: z :: r) ++ [x]) with (u :: z :: (r ++ [x])).
    rewrite path_weight_cons, E.
    change (z :: r ++ [x]) with ((z :: r) ++ [x]).
    rewrite (IH z (last (z :: r) z) d'); auto.
    + f_equal. lia.
    + rewrite <- W. f_equal. change (last (u :: z :: r) u) with (last (z :: r) u).
      apply last_default. discriminate.
Qed.

Lemma walk_path g s v d : walk g s v d -> exists p, is_path g s v p d.
Proof.
  intros H. induction H as [|v x d w H [p (Hh & Hl & Hw)] W].
  - exists [s]. repeat split.
  - exists (p ++ [x]). repeat split.
    + destruct p; [discriminate | exact Hh].
    + apply last_last.
    + eapply path_weight_snoc; eauto.
Qed.

Lemma reachable_walk g s e : reachable g s e <-> exists d, walk g s e d.
Proof.
  split.
  - intros (p & d & H). exists d. eapply path_walk; eauto.
  - intros (d & H). apply walk_path in H. destruct H as [p H]. now exists p, d.
Qed.

Lemma path_weight_nonneg g : nonneg g = true ->
  forall p d, path_weight g p = Some d -> 0 <= d.
Proof.
  intros N. induction p as [|u p IH]; intros d P.
  - inversion P. lia.
  - destruct p as [|v r]; [inversion P; lia|].
    rewrite path_weight_cons in P.
    destruct (weight_of g u v) as [w|] eqn:E; [|discriminate].
    destruct (path_weight g (v :: r)) as [d'|] eqn:P'; [|discriminate].
    inversion P; subst. pose proof (weight_of_nonneg _ _ _ _ N E).
    pose proof (IH _ eq_refl). lia.
Qed.

(** The part of a path that starts at one of its places weighs no more. *)
Lemma path_weight_suffix g : nonneg g = true ->
  forall l1 u l2 d,
    path_weight g (l1 ++ u :: l2) = Some d ->
    exists d', path_weight g (u :: l2) = Some d' /\ d' <= d.
Proof.
  intros N. induction l1 as [|x l1 IH]; intros u l2 d P.
  - exists d. split; auto. lia.
  - destruct l1 as [|y l1].
    + change ([x] ++ u :: l2) with (x :: u :: l2) in P.
      rewrite path_weight_cons in P.
      destruct (weight_of g x u) as [w|] eqn:E; [|discriminate].
      destruct (path_weight g (u :: l2)) as [d'|] eqn:P'; [|discriminate].
      inversion P; subst. exists d'. split; auto.
      pose proof (weight_of_nonneg _ _ _ _ N E). lia.
    + change ((x :: y :: l1) ++ u :: l2) with (x :: y :: (l1 ++ u :: l2)) in P.
      rewrite path_weight_cons in P.
      destruct (weight_of g x y) as [w|] eqn:E; [|discriminate].
      change (y :: l1 ++ u :: l2) with ((y :: l1) ++ u :: l2) in P.
      destruct (path_weight g ((y :: l1) ++ u :: l2)) as [d1|] eqn:P';
        [|discriminate].
      inversion P; subst. destruct (IH _ _ _ P') as (d' & Hd & Hl).
      exists d'. split; auto.
      pose proof (weight_of_nonneg _ _ _ _ N E). lia.
Qed.

(** Cutting the cycles of a path leaves a simple path that weighs no
    more. *)
Lemma path_shortcut g : nonneg g = true ->
  forall p u e d,
    is_path g u e p d ->
    exists p' d', simple_path g u e p' d' /\ d' <= d.
Proof.
  intros N. induction p as [|x p IH]; intros u e d (H & L & W); [discriminate|].
  simpl in H. inversion H; subst x. subst e. destruct p as [|v r].
  - simpl in *. inversion W; subst. exists [u], 0. split; [|lia].
    split; [repeat split|]. constructor; [intros []|constructor].
  - rewrite path_weight_cons in W.
    destruct (weight_of g u v) as [w|] eqn:E; [|discriminate].
    destruct (path_weight g (v :: r)) as [d1|] eqn:P; [|discriminate].
    inversion W; subst. pose proof (weight_of_nonneg _ _ _ _ N E) as Hw.
    destruct (IH v (last (v :: r) v) d1) as (p' & d' & [(H' & L' & W') ND] & Le).
    { repeat split; auto. }
    assert (Le' : last (v :: r) v = last (u :: v :: r) u).
    { change (last (u :: v :: r) u) with (last (v :: r) u).
      apply last_default. discriminate. }
    destruct (in_dec string_dec u p') as [I | NI].
    + apply in_split in I. destruct I as (l1 & l2 & ->).
      destruct (path_weight_suffix g N _ _ _ _ W') as (d2 & P2 & L2).
      exists (u :: l2), d2. split; [|lia]. split.
      * repeat split; auto. rewrite <- Le', <- L'. symmetry.
        apply last_app_cons.
      * now apply NoDup_app_remove_l in ND.
    + destruct p' as [|v' r']; [discriminate|]. simpl in H'.
      inversion H'; subst v'.
      exists (u :: v :: r'), (w + d'). split; [|lia]. split.
      * repeat split.
        -- rewrite <- Le', <- L'.
           change (last (u :: v :: r') u) with (last (v :: r') u).
           apply last_default. discriminate.
        -- rewrite path_weight_cons, E, W'. reflexivity.
      * constructor; auto.
Qed.

(** ** Tentative distances are weights of walks *)

Section Sound.
Variable g : dict (dict Z).
Variable s : string.
Hypothesis Hwf : well_formed g = true.

Lemma init_sound : sound g s (init_state g s).
Proof.
  unfold init_state, sound. split.
  - intros v d. rewrite dget_dset.
    destruct (String.eqb_spec v s); subst.
    + intros [= <-]. constructor.
    + rewrite dget_map_const. destruct (dget g v); discriminate.
  - simpl. intros d x [E | []]. inversion E; subst. constructor.
Qed.

Lemma relax_sound cd u st v w st' :
  walk g s u cd -> weight_of g u v = Some w ->
  sound g s st -> relax cd u st (v, w) = Ok st' -> sound g s st'.
Proof.
  destruct st as [[dist prev] q]. intros Wu E [Sd Sq] R.
  apply relax_cases in R.
  destruct R as (dv & Ev & [[L ->] | [L ->]]); [|now split].
  assert (Wv : walk g s v (cd + w)) by (eapply walk_step; eauto).
  split.
  - intros y d. rewrite dget_dset. destruct (String.eqb_spec y v); subst; auto.
    now intros [= <-].
  - intros d x I. apply In_heappush in I. destruct I as [I | I]; auto.
    now inversion I; subst.
Qed.

Lemma main_loop_sound n st dist prev :
  sound g s st -> main_loop n g st = Ok (dist, prev) ->
  sound g s (dist, prev, []).
Proof.
  apply (main_loop_rule (sound g s) g).
  - intros d p cd u q dc [Sd Sq] _ _. split; auto.
    intros d' x I. apply Sq. now right.
  - intros d p cd u q dc items st' [Sd Sq] _ _ G R.
    assert (Wu : walk g s u cd) by (apply Sq; now left).
    revert R. apply (relax_all_rule (sound g s)).
    + intros st0 [v w] st1 I S0 R. eapply relax_sound; eauto.
      eapply well_formed_spec; eauto.
    + split; auto. intros d' x I. apply Sq. now right.
Qed.

End Sound.

(** ** When the queue is empty every edge is relaxed *)

Section Settled.
Variable g : dict (dict Z).

Lemma relaxed_lower dist v a dv x d :
  dget dist v = Some dv -> num_ltb (Fin a) dv = true ->
  relaxed g dist x d -> relaxed g (dset dist v (Fin a)) x d.
Proof.
  intros Ev L H items y w G I. destruct (H items y w G I) as (dy & Dy & Ly).
  destruct (String.eqb_spec y v); subst.
  - exists a. rewrite dget_dset_same. split; auto.
    pose proof (lookup_above _ _ _ _ _ Ev L Dy). lia.
  - exists dy. now rewrite dget_dset_other.
Qed.

Lemma relax_settled_but cd u st nw st' :
  settled_but g cd u st -> relax cd u st nw = Ok st' ->
  settled_but g cd u st'.
Proof.
  destruct st as [[dist prev] q], nw as [v w]. intros S R.
  apply relax_cases in R.
  destruct R as (dv & Ev & [[L ->] | [L ->]]); auto.
  intros x d. rewrite dget_dset. destruct (String.eqb_spec x v); subst.
  - intros [= <-]. right. left. apply In_heappush. now left.
  - intros H. destruct (S x d H) as [A | [A | A]]; auto.
    + right. left. apply In_heappush. now right.
    + right. right. eapply relaxed_lower; eauto.
Qed.

(** Tentative distances only go down. *)
Lemma relax_all_lowers cd u items x d st st' :
  relax_all cd u st items = Ok st' ->
  (exists d0, dget (fst (fst st)) x = Some (Fin d0) /\ d0 <= d) ->
  exists d', dget (fst (fst st')) x = Some (Fin d') /\ d' <= d.
Proof.
  intros R H. revert st st' H R.
  apply (relax_all_rule
           (fun st => exists d', dget (fst (fst st)) x = Some (Fin d') /\
                                 d' <= d)).
  intros [[dist prev] q] [v w] st1 _ (d0 & D0 & L0) R.
  apply relax_cases in R.
  destruct R as (dv & Ev & [[L ->] | [L ->]]); simpl in *; eauto.
  destruct (String.eqb_spec x v); subst.
  - exists (cd + w). rewrite dget_dset_same. split; auto.
    pose proof (lookup_above _ _ _ _ _ Ev L D0). lia.
  - exists d0. now rewrite dget_dset_other.
Qed.

Lemma relax_all_relaxes cd u items : forall st st',
  relax_all cd u st items = Ok st' ->
  forall v w, In (v, w) items ->
    exists dv, dget (fst (fst st')) v = Some (Fin dv) /\ dv <= cd + w.
Proof.
  induction items as [|[v0 w0] items IH]; intros st st' R v w I; [destruct I|].
  simpl in R. apply bind_Ok in R. destruct R as (st1 & R1 & R).
  destruct I as [E | I]; [|eauto]. inversion E; subst. clear E.
  eapply relax_all_lowers; eauto.
  destruct st as [[dist prev] q]. apply relax_cases in R1.
  destruct R1 as (dv & Ev & [[L ->] | [L ->]]); simpl.
  - exists (cd + w). rewrite dget_dset_same. split; auto. lia.
  - destruct dv as [b|]; [|discriminate]. exists b. split; auto.
    rewrite num_ltb_Fin in L. apply Z.ltb_ge in L. lia.
Qed.

Lemma init_settled s : settled g (init_state g s).
Proof.
  unfold init_state, settled. intros x d. rewrite dget_dset.
  destruct (String.eqb_spec x s); subst.
  - intros [= <-]. left. simpl. now left.
  - rewrite dget_map_const. destruct (dget g x); discriminate.
Qed.

Lemma main_loop_settled n st dist prev :
  settled g st -> main_loop n g st = Ok (dist, prev) ->
  settled g (dist, prev, []).
Proof.
  apply (main_loop_rule (settled g) g).
  - intros d p cd u q dc S Du C x dx Dx.
    destruct (S x dx Dx) as [[E | I] | A]; auto.
    inversion E; subst. rewrite Du in Dx. inversion Dx; subst.
    rewrite num_ltb_Fin in C. apply Z.ltb_lt in C. lia.
  - intros d p cd u q dc items [[d1 p1] q1] S Du C G R.
    assert (S0 : settled_but g cd u (d, p, q)).
    { intros x dx Dx. destruct (S x dx Dx) as [[E | I] | A]; auto.
      inversion E; subst. auto. }
    assert (S1 : settled_but g cd u (d1, p1, q1)).
    { revert R S0. intros R S0. revert S0 R.
      apply (relax_all_rule (settled_but g cd u)).
      intros st0 nw st1 _. apply relax_settled_but. }
    intros x dx Dx. destruct (S1 x dx Dx) as [[-> ->] | [I | A]]; auto.
    right. intros items' v w G' I. rewrite G in G'. inversion G'; subst.
    apply (relax_all_relaxes _ _ _ _ _ R v w I).
Qed.

(** With every edge relaxed, a tentative distance is below the weight of
    every walk. *)
Lemma walk_lower_bound s dist :
  (forall x d, dget dist x = Some (Fin d) -> relaxed g dist x d) ->
  dget dist s = Some (Fin 0) ->
  forall v d, walk g s v d ->
    exists dv, dget dist v = Some (Fin dv) /\ dv <= d.
Proof.
  intros S Ds v d H. induction H as [|v x d w H (dv & Dv & Lv) W].
  - exists 0. split; auto. lia.
  - unfold weight_of in W. destruct (dget g v) as [items|] eqn:G;
      [|discriminate].
    apply dget_In in W.
    destruct (S v dv Dv items x w G W) as (dx & Dx & Lx).
    exists dx. split; auto. lia.
Qed.

End Settled.

(** ** The query as a whole *)

Lemma init_queue_nonneg (g : graph) s :
  queue_nonneg (snd (init_state g s)).
Proof. simpl. intros d x [E | []]. inversion E; lia. Qed.

Lemma loops_terminate (g : graph) (s e : string) :
  nonneg g = true ->
  exists n,
    main_loop n g (init_state g s) <> OutOfFuel /\
    (forall dist prev,
       main_loop n g (init_state g s) = Ok (dist, prev) ->
       walk_back n prev (Some e) [] <> OutOfFuel).
Proof.
  intros N.
  destruct (main_loop_terminates g N _ _ _
              (fst (fst (init_state g s)))
              (snd (fst (init_state g s)))
              (snd (init_state g s)) eq_refl eq_refl eq_refl
              (init_queue_nonneg g s)) as [n1 H1].
  change (main_loop n1 g (init_state g s) <> OutOfFuel) in H1.
  assert (exists n2, forall dist prev,
            main_loop n1 g (init_state g s) = Ok (dist, prev) ->
            walk_back n2 prev (Some e) [] <> OutOfFuel) as [n2 H2].
  { destruct (main_loop n1 g (init_state g s)) as [[dist prev]| |] eqn:M.
    - pose proof (main_loop_tree_ok s g n1 _ _ _ N (init_tree_ok s g) M)
        as (_ & _ & _ & _ & _ & E).
      destruct (ends_walk_back prev (Some e) (E _)) as [n2 H2].
      exists n2. intros d p [= <- <-]. apply H2.
    - exists 0%nat. discriminate.
    - exists 0%nat. discriminate. }
  assert (A : main_loop (Nat.max n1 n2) g (init_state g s) =
              main_loop n1 g (init_state g s)).
  { eapply main_loop_mono; eauto. lia. }
  exists (Nat.max n1 n2). rewrite A. split; auto.
  intros dist prev M. specialize (H2 dist prev M).
  rewrite (walk_back_mono prev n2 _ _ _ (Nat.max n1 n2) eq_refl H2); auto.
  lia.
Qed.

(** The call runs out of fuel only where one of its loops does. *)
Lemma dijkstra_not_OutOfFuel (g : graph) (s e : string) n :
  main_loop n g (init_state g s) <> OutOfFuel ->
  (forall dist prev,
     main_loop n g (init_state g s) = Ok (dist, prev) ->
     walk_back n prev (Some e) [] <> OutOfFuel) ->
  dijkstra_shortest_path n g s e <> OutOfFuel.
Proof.
  intros A B. unfold dijkstra_shortest_path.
  destruct (main_loop n g (init_state g s)) as [[dist prev]| |];
    cbn [bind]; try congruence.
  specialize (B dist prev eq_refl).
  destruct (walk_back n prev (Some e) []); cbn [bind]; try congruence.
  unfold lookup. destruct (dget dist e); discriminate.
Qed.

(** C8. On a graph whose weights are all non-negative the query terminates:
    some fuel lets the [while queue] loop finish, lets the walk along the
    predecessors finish whenever the first loop has handed it its result,
    and so lets the whole call finish (with more fuel as well). To finish
    is to return or to raise [KeyError]; by C9 a closed graph leaves only
    the first. *)
Theorem query_terminates (g : graph) (start end_ : string) :
  nonneg g = true ->
  exists n,
    main_loop n g (init_state g start) <> OutOfFuel /\
    (forall dist prev,
       main_loop n g (init_state g start) = Ok (dist, prev) ->
       walk_back n prev (Some end_) [] <> OutOfFuel) /\
    (forall fuel, (n <= fuel)%nat ->
       dijkstra_shortest_path fuel g start end_ <> OutOfFuel).
Proof.
  intros N. destruct (loops_terminate g start end_ N) as (n & A & B).
  exists n. repeat split; auto.
  intros fuel L.
  pose proof (dijkstra_not_OutOfFuel g start end_ n A B) as C.
  rewrite (dijkstra_mono g start end_ _ fuel _ eq_refl C L). exact C.
Qed.

Lemma query_terminates_witness :
  exists n,
    main_loop n seed_graph (init_state seed_graph "Jauhar") <> OutOfFuel /\
    (forall dist prev,
       main_loop n seed_graph (init_state seed_graph "Jauhar") =
       Ok (dist, prev) ->
       walk_back n prev (Some "Defence") [] <> OutOfFuel) /\
    (forall fuel, (n <= fuel)%nat ->
       dijkstra_shortest_path fuel seed_graph "Jauhar" "Defence" <>
       OutOfFuel).
Proof.
  apply (query_terminates seed_graph "Jauhar" "Defence"). reflexivity.
Defined.

(** What a query between two places of a closed graph with non-negative
    weights returns, in terms of the final [distances] and
    [previous_nodes]. *)
Lemma query_returns (g : graph) (s e : string) :
  closed g = true -> nonneg g = true ->
  In s (keys g) -> In e (keys g) ->
  exists n dist prev sp d,
    main_loop n g (init_state g s) = Ok (dist, prev) /\
    walk_back n prev (Some e) [] = Ok sp /\
    dget dist e = Some d /\
    forall fuel, (n <= fuel)%nat ->
      dijkstra_shortest_path fuel g s e = Ok (rev sp, d).
Proof.
  intros C N Hs He.
  destruct (loops_terminate g s e N) as (n & A & B).
  pose proof (dijkstra_not_OutOfFuel g s e n A B) as T.
  pose proof (dijkstra_no_KeyError g C n s e) as K.
  destruct (dijkstra_shortest_path n g s e) as [[p d]| |] eqn:D.
  2:{ exfalso. eapply K; eauto. }
  2:{ congruence. }
  pose proof D as D'. unfold dijkstra_shortest_path in D'.
  apply bind_Ok in D'. destruct D' as ([dist prev] & M & D').
  apply bind_Ok in D'. destruct D' as (sp & W & D').
  apply bind_Ok in D'. destruct D' as (d' & L & D').
  inversion D'; subst. apply lookup_Ok in L.
  exists n, dist, prev, sp, d. repeat split; auto.
  intros fuel Le. eapply dijkstra_mono; eauto; discriminate.
Qed.

Lemma walk_back_root prev c n sp :
  dget prev c = Some None -> walk_back n prev (Some c) [] = Ok sp -> sp = [c].
Proof.
  intros P. destruct n as [|[|n]]; simpl; unfold lookup; rewrite ?P;
    cbn [bind]; simpl; congruence.
Qed.

(** The final [distances] and [previous_nodes] of a query. *)
Lemma query_final (g : graph) (s : string) n dist prev :
  closed g = true -> nonneg g = true -> In s (keys g) ->
  main_loop n g (init_state g s) = Ok (dist, prev) ->
  keys_ok g (dist, prev, []) /\ tree_ok s (dist, prev, []) /\
  (forall x d, dget dist x = Some (Fin d) -> relaxed g dist x d) /\
  (well_formed g = true ->
   forall v d, dget dist v = Some (Fin d) -> walk g s v d).
Proof.
  intros C N Hs M. repeat split.
  1-4: eapply (main_loop_keys_ok g C); eauto using init_keys_ok.
  1-6: eapply (main_loop_tree_ok s g); eauto using init_tree_ok.
  - intros x d D.
    destruct (main_loop_settled g n _ _ _ (init_settled g s) M x d D)
      as [[] | R]; auto.
  - intros W. eapply (main_loop_sound g s W); eauto using init_sound.
Qed.

(** C7. In a closed graph with non-negative weights, the query from a place
    of the graph to itself returns the one-element path and the distance
    0. *)
Theorem reflexive_query (g : graph) (x : string) :
  closed g = true -> nonneg g = true -> dmem g x = true ->
  exists n, forall fuel, (n <= fuel)%nat ->
    dijkstra_shortest_path fuel g x x = Ok ([x], Fin 0).
Proof.
  intros C N Hx. apply dmem_keys in Hx.
  destruct (query_returns g x x C N Hx Hx) as (n & dist & prev & sp & d & M & W & L & R).
  destruct (query_final g x n dist prev C N Hx M)
    as ((_ & Kp & _) & (_ & _ & Ds & Ps & _) & _).
  assert (P : dget prev x = Some None).
  { destruct (dget prev x) as [p|] eqn:E; [|now apply Kp in Hx].
    now rewrite (Ps p eq_refl). }
  apply (walk_back_root _ _ _ _ P) in W. subst sp.
  rewrite Ds in L. inversion L; subst. exists n. exact R.
Qed.

Lemma reflexive_query_witness :
  exists n, forall fuel, (n <= fuel)%nat ->
    dijkstra_shortest_path fuel seed_graph "Malir" "Malir" =
    Ok (["Malir"], Fin 0).
Proof.
  apply (reflexive_query seed_graph "Malir"); reflexivity.
Defined.

(** What the query returns for an unreachable destination. *)
Lemma unreachable_result (g : graph) (s e : string) :
  well_formed g = true -> closed g = true -> nonneg g = true ->
  In s (keys g) -> In e (keys g) -> ~ reachable g s e ->
  exists n, forall fuel, (n <= fuel)%nat ->
    dijkstra_shortest_path fuel g s e = Ok ([e], Inf).
Proof.
  intros Wf C N Hs He U.
  destruct (query_returns g s e C N Hs He) as (n & dist & prev & sp & d & M & W & L & R).
  destruct (query_final g s n dist prev C N Hs M)
    as ((_ & Kp & _) & (_ & _ & _ & _ & J & _) & _ & S).
  specialize (S Wf).
  assert (F : forall de, dget dist e <> Some (Fin de)).
  { intros de D. apply U. apply reachable_walk. exists de. now apply S. }
  assert (P : dget prev e = Some None).
  { destruct (dget prev e) as [[u|]|] eqn:E; auto.
    - destruct (J _ _ E) as (du & de & _ & D & _). now apply F in D.
    - now apply Kp in He. }
  apply (walk_back_root _ _ _ _ P) in W. subst sp.
  destruct d as [de|]; [now apply F in L|]. exists n. exact R.
Qed.

(** What the query returns for a reachable destination: a finite distance,
    the least weight of a walk. *)
Lemma reachable_result (g : graph) (s e : string) :
  well_formed g = true -> closed g = true -> nonneg g = true ->
  In s (keys g) -> In e (keys g) -> reachable g s e ->
  exists n path d,
    (forall fuel, (n <= fuel)%nat ->
       dijkstra_shortest_path fuel g s e = Ok (path, Fin d)) /\
    walk g s e d /\ (forall d', walk g s e d' -> d <= d').
Proof.
  intros Wf C N Hs He U.
  destruct (query_returns g s e C N Hs He) as (n & dist & prev & sp & d & M & W & L & R).
  destruct (query_final g s n dist prev C N Hs M)
    as (_ & (_ & _ & Ds & _) & Rx & S).
  specialize (S Wf).
  pose proof (walk_lower_bound g s dist Rx Ds e) as B.
  apply reachable_walk in U. destruct U as [d0 U].
  destruct (B d0 U) as (de & D & _). rewrite D in L. inversion L; subst.
  exists n, (rev sp), de. repeat split; auto.
  intros d' H. destruct (B d' H) as (de' & D' & Le). congruence.
Qed.

(** C1, amended. In a graph (a dictionary of dictionaries) whose weights are
    integers (Python [int]s, as in the seed graph), with closed neighbor
    references and non-negative weights, for two places of the graph with
    the destination reachable from the source, the distance returned is the
    minimum of the sums of the edge weights over the simple paths from the
    source to the destination: some simple path has that weight, and none
    has less. (Symmetry is not needed.) *)
Theorem distance_is_minimum (g : graph) (source destination : string) :
  well_formed g = true -> closed g = true -> nonneg g = true ->
  dmem g source = true -> dmem g destination = true ->
  reachable g source destination ->
  exists n path d,
    (forall fuel, (n <= fuel)%nat ->
       dijkstra_shortest_path fuel g source destination =
       Ok (path, Fin d)) /\
    (exists p, simple_path g source destination p d) /\
    (forall p d', simple_path g source destination p d' -> d <= d').
Proof.
  intros Wf C N Hs He U. apply dmem_keys in Hs, He.
  destruct (reachable_result g source destination Wf C N Hs He U)
    as (n & path & d & R & W & Min).
  exists n, path, d. repeat split; auto.
  - apply walk_path in W. destruct W as [p0 P0].
    destruct (path_shortcut g N _ _ _ _ P0) as (p & d' & S & Le).
    exists p. assert (d <= d').
    { apply Min. destruct S as [S _]. eapply path_walk; eauto. }
    assert (d' = d) as -> by lia. exact S.
  - intros p d' [S _]. apply Min. eapply path_walk; eauto.
Qed.

Lemma distance_is_minimum_witness :
  exists n path d,
    (forall fuel, (n <= fuel)%nat ->
       dijkstra_shortest_path fuel seed_graph "Jauhar" "Defence" =
       Ok (path, Fin d)) /\
    (exists p, simple_path seed_graph "Jauhar" "Defence" p d) /\
    (forall p d', simple_path seed_graph "Jauhar" "Defence" p d' -> d <= d').
Proof.
  apply (distance_is_minimum seed_graph "Jauhar" "Defence"); try reflexivity.
  exists ["Jauhar"; "Malir"; "Saddar"; "Clifton"; "Defence"], 25.
  repeat split.
Defined.

(** ** Unreachable destinations *)

(** In [negative_graph] the two ends of the negative route keep improving
    each other: the [while queue] loop never finishes. *)
Lemma negative_graph_loops n : forall c dist prev,
  (forall da db,
     dget dist "A" = Some da -> dget dist "B" = Some db ->
     num_ltb da (Fin c) = false -> num_ltb (Fin (c - 1)) db = true ->
     main_loop n negative_graph (dist, prev, [(c, "A")]) = OutOfFuel) /\
  (forall da db,
     dget dist "A" = Some da -> dget dist "B" = Some db ->
     num_ltb db (Fin c) = false -> num_ltb (Fin (c - 1)) da = true ->
     main_loop n negative_graph (dist, prev, [(c, "B")]) = OutOfFuel).
Proof.
  induction n as [|n IH]; intros c dist prev; [split; reflexivity|].
  assert (Lo : forall d, num_ltb d (Fin c) = false ->
                         num_ltb (Fin (c - 1 - 1)) d = true).
  { intros [b|] H; auto. rewrite num_ltb_Fin in *.
    apply Z.ltb_ge in H. apply Z.ltb_lt. lia. }
  assert (Re : num_ltb (Fin (c - 1)) (Fin (c - 1)) = false).
  { rewrite num_ltb_Fin. apply Z.ltb_irrefl. }
  split; intros da db Da Db Fresh Far.
  - simpl. unfold lookup. rewrite Da. cbn [bind]. rewrite Fresh. simpl.
    unfold lookup. rewrite Db. cbn [bind].
    replace (c + -1) with (c - 1) by lia. rewrite Far. cbn [bind].
    apply (proj2 (IH (c - 1) _ _)) with (da := da) (db := Fin (c - 1)); auto.
    + now rewrite dget_dset_other by discriminate.
    + apply dget_dset_same.
  - simpl. unfold lookup. rewrite Db. cbn [bind]. rewrite Fresh. simpl.
    unfold lookup. rewrite Da. cbn [bind].
    replace (c + -1) with (c - 1) by lia. rewrite Far. cbn [bind].
    apply (proj1 (IH (c - 1) _ _)) with (da := Fin (c - 1)) (db := db); auto.
    + apply dget_dset_same.
    + now rewrite dget_dset_other by discriminate.
Qed.

Lemma walk_stays_in g area s :
  stays_in g area = true -> In s area ->
  forall v d, walk g s v d -> In v area.
Proof.
  intros A Hs v d H. induction H as [|v x d w H IH W]; auto.
  unfold stays_in in A. rewrite forallb_forall in A. specialize (A v IH).
  unfold weight_of in W. destruct (dget g v) as [nb|]; [|discriminate].
  apply dget_keys in W. rewrite forallb_forall in A.
  apply existsb_eqb_In. now apply A.
Qed.

Lemma unreachable_outside g area s e :
  stays_in g area = true -> In s area -> ~ In e area -> ~ reachable g s e.
Proof.
  intros A Hs He R. apply reachable_walk in R. destruct R as [d W].
  apply He. eapply walk_stays_in; eauto.
Qed.

Lemma not_In_existsb k (l : list string) :
  existsb (String.eqb k) l = false -> ~ In k l.
Proof.
  intros H I. apply existsb_eqb_In in I. congruence.
Qed.

(** C10, as stated, fails: [A] and [Z] are places of [negative_graph], [Z]
    is not reachable from [A], and the query from [A] to [Z] never returns:
    the [while queue] loop runs out of every fuel. *)
Lemma negative_route_never_returns :
  dmem negative_graph "A" = true /\ dmem negative_graph "Z" = true /\
  "A" <> "Z" /\ ~ reachable negative_graph "A" "Z" /\
  forall fuel,
    dijkstra_shortest_path fuel negative_graph "A" "Z" = OutOfFuel.
Proof.
  repeat split; try discriminate.
  - apply (unreachable_outside _ ["A"; "B"]); [reflexivity | now left |].
    now apply not_In_existsb.
  - intros fuel. unfold dijkstra_shortest_path.
    pose proof (proj1 (negative_graph_loops fuel 0
                         (fst (fst (init_state negative_graph "A")))
                         (snd (fst (init_state negative_graph "A"))))
                  (Fin 0) Inf eq_refl eq_refl eq_refl eq_refl) as L.
    change (main_loop fuel negative_graph (init_state negative_graph "A") =
            OutOfFuel) in L.
    now rewrite L.
Qed.

(** C10, amended. In a closed graph with non-negative weights, the query
    between two places of the graph, the destination not reachable from the
    source, returns exactly the one-element list [[destination]] and the
    distance +infinity. *)
Theorem unreachable_query (g : graph) (source destination : string) :
  well_formed g = true -> closed g = true -> nonneg g = true ->
  dmem g source = true -> dmem g destination = true ->
  ~ reachable g source destination ->
  exists n, forall fuel, (n <= fuel)%nat ->
    dijkstra_shortest_path fuel g source destination =
    Ok ([destination], Inf).
Proof.
  intros Wf C N Hs He U. apply dmem_keys in Hs, He.
  now apply unreachable_result.
Qed.

Lemma unreachable_query_witness :
  exists n, forall fuel, (n <= fuel)%nat ->
    dijkstra_shortest_path fuel seed_with_island "Jauhar" "Island" =
    Ok (["Island"], Inf).
Proof.
  apply (unreachable_query seed_with_island "Jauhar" "Island");
    try reflexivity.
  apply (unreachable_outside _ (keys seed_graph));
    [reflexivity | now left | now apply not_In_existsb].
Defined.


(** ** The outcomes a caller can tell apart *)

Lemma walk_back_extends prev n : forall cur acc sp,
  walk_back n prev cur acc = Ok sp -> exists l, sp = acc ++ l.
Proof.
  induction n as [|n IH]; intros cur acc sp H; [discriminate|].
  simpl in H. destruct cur as [c|].
  - apply bind_Ok in H. destruct H as (p & _ & H). apply IH in H.
    destruct H as [l ->]. exists ([c] ++ l). now rewrite app_assoc.
  - inversion H; subst. exists []. now rewrite app_nil_r.
Qed.

(** The list returned ends with the destination, whatever the outcome. *)
Lemma dijkstra_path_ends g s e fuel path d :
  dijkstra_shortest_path fuel g s e = Ok (path, d) ->
  exists l, path = l ++ [e].
Proof.
  unfold dijkstra_shortest_path. intros H.
  apply bind_Ok in H. destruct H as ([dist prev] & _ & H).
  apply bind_Ok in H. destruct H as (sp & W & H).
  apply bind_Ok in H. destruct H as (d' & _ & H). inversion H; subst.
  destruct fuel as [|fuel]; [discriminate|]. simpl in W.
  apply bind_Ok in W. destruct W as (p & _ & W).
  apply walk_back_extends in W. destruct W as [l ->].
  exists (rev l). now rewrite rev_app_distr.
Qed.

(** A query about a place that is not in the graph does not return: the
    engine raises [KeyError] (or is still running). *)
Lemma unknown_place_raises g s e fuel r :
  dmem g s = false \/ dmem g e = false ->
  dijkstra_shortest_path fuel g s e <> Ok r.
Proof.
  intros A H. unfold dijkstra_shortest_path in H.
  apply bind_Ok in H. destruct H as ([dist prev] & M & H).
  assert (Hs : dmem g s = true).
  { destruct (dmem g s) eqn:Hs; auto. exfalso.
    destruct fuel as [|fuel]; [discriminate|]. simpl in M.
    unfold lookup in M. rewrite dget_dset_same in M. cbn [bind] in M.
    rewrite num_ltb_Fin, Z.ltb_irrefl in M. unfold dmem in Hs.
    destruct (dget g s); discriminate. }
  destruct A as [A | A]; [congruence|].
  assert (Ne : e <> s) by congruence.
  assert (D : dget dist e = None).
  { revert M.
    apply (main_loop_rule (fun st => dget (fst (fst st)) e = None) g
             (fun _ _ _ _ _ _ P _ _ => P)); simpl.
    - intros d p cd u q dc items st' P _ _ _ R.
      refine (relax_all_rule (fun st => dget (fst (fst st)) e = None)
                cd u items _ (d, p, q) st' P R).
      clear. intros [[d0 p0] q0] [v w] st1 _ P R. apply relax_cases in R.
      destruct R as (dv & Ev & [[_ ->] | [_ ->]]); auto. simpl in *.
      rewrite dget_dset_other; congruence.
    - rewrite dget_dset_other, dget_map_const by assumption.
      unfold dmem in A. destruct (dget g e); [discriminate | reflexivity]. }
  apply bind_Ok in H. destruct H as (sp & _ & H).
  unfold lookup in H. rewrite D in H. discriminate.
Qed.

Lemma island_unreachable : ~ reachable seed_with_island "Jauhar" "Island".
Proof.
  apply (unreachable_outside _ (keys seed_graph));
    [reflexivity | now left | now apply not_In_existsb].
Qed.

(** C6, as stated, fails: [Island] has no route, and the query from Jauhar
    to it returns a path all the same, the list that holds [Island]; the
    distance is infinite. *)
Lemma island_query_carries_a_path :
  dmem seed_with_island "Jauhar" = true /\
  dmem seed_with_island "Island" = true /\
  ~ reachable seed_with_island "Jauhar" "Island" /\
  dijkstra_shortest_path 16 seed_with_island "Jauhar" "Island" =
    Ok (["Island"], Inf) /\
  forall fuel d,
    dijkstra_shortest_path fuel seed_with_island "Jauhar" "Island" <>
    Ok ([], d).
Proof.
  repeat split; try apply island_unreachable.
  intros fuel d H. apply dijkstra_path_ends in H. destruct H as [l H].
  destruct l; discriminate.
Qed.

(** C6, amended. In a closed graph with non-negative integer weights
    (Python [int]s, as in the seed graph) a query between two places of
    the graph returns a non-empty list and a distance. For an unreachable
    destination they are the list that holds the destination alone and
    +infinity; for a reachable one the distance is finite: the caller
    tells the two outcomes apart by the distance, and so does [main],
    which prints that no path exists in the first case and the path with
    its distance in the second, and returns before the query when one of
    the two places picked is the place named by the empty string. A query
    about a place that is not in the graph does not return. *)
Theorem no_path_outcome (g : graph) :
  well_formed g = true -> closed g = true -> nonneg g = true ->
  (forall s e, dmem g s = true -> dmem g e = true ->
     exists n, forall fuel, (n <= fuel)%nat ->
       exists path d,
         dijkstra_shortest_path fuel g s e = Ok (path, d) /\
         path <> [] /\
         (~ reachable g s e -> path = [e] /\ d = Inf) /\
         (reachable g s e -> d <> Inf) /\
         (forall c1 c2,
            select_place g c1 = Some s -> select_place g c2 = Some e ->
            find_shortest_path fuel g c1 c2 =
            Ok (if String.eqb s "" || String.eqb e "" then NoQuery
                else if num_eqb d Inf then NoPathExists s e
                else ShortestPath path d))) /\
  (forall s e fuel r,
     dmem g s = false \/ dmem g e = false ->
     dijkstra_shortest_path fuel g s e <> Ok r).
Proof.
  intros Wf C N. split; [|intros; now apply unknown_place_raises].
  intros s e Hs He. apply dmem_keys in Hs, He.
  destruct (query_returns g s e C N Hs He)
    as (n & dist & prev & sp & d & _ & _ & _ & R).
  exists n. intros fuel L. exists (rev sp), d.
  pose proof (R fuel L) as Rf. repeat split; auto.
  - apply dijkstra_path_ends in Rf. destruct Rf as [l ->].
    destruct l; discriminate.
  - destruct (unreachable_result g s e Wf C N Hs He H) as [n' R'].
    pose proof (R (Nat.max n n') (Nat.le_max_l _ _)) as A.
    rewrite (R' (Nat.max n n') (Nat.le_max_r _ _)) in A. congruence.
  - destruct (unreachable_result g s e Wf C N Hs He H) as [n' R'].
    pose proof (R (Nat.max n n') (Nat.le_max_l _ _)) as A.
    rewrite (R' (Nat.max n n') (Nat.le_max_r _ _)) in A. congruence.
  - intros U ->.
    destruct (reachable_result g s e Wf C N Hs He U) as (n' & p & d' & R' & _).
    pose proof (R (Nat.max n n') (Nat.le_max_l _ _)) as A.
    rewrite (R' (Nat.max n n') (Nat.le_max_r _ _)) in A. congruence.
  - intros c1 c2 E1 E2. unfold find_shortest_path.
    rewrite E1, E2. cbn [falsy].
    destruct (String.eqb s "" || String.eqb e ""); [reflexivity|].
    rewrite Rf. cbn [bind].
    destruct (num_eqb d Inf); reflexivity.
Qed.

Lemma no_path_outcome_witness :
  exists n, forall fuel, (n <= fuel)%nat ->
    exists path d,
      dijkstra_shortest_path fuel seed_with_island "Jauhar" "Island" =
        Ok (path, d) /\
      path <> [] /\
      (~ reachable seed_with_island "Jauhar" "Island" ->
       path = ["Island"] /\ d = Inf) /\
      (reachable seed_with_island "Jauhar" "Island" -> d <> Inf) /\
      (forall c1 c2,
         select_place seed_with_island c1 = Some "Jauhar" ->
         select_place seed_with_island c2 = Some "Island" ->
         find_shortest_path fuel seed_with_island c1 c2 =
         Ok (if String.eqb "Jauhar" "" || String.eqb "Island" ""
             then NoQuery
             else if num_eqb d Inf then NoPathExists "Jauhar" "Island"
             else ShortestPath path d)).
Proof.
  apply (no_path_outcome seed_with_island); reflexivity.
Defined.

(** ** The path returned *)

Section Links.
Variable g : dict (dict Z).
Variable s : string.
Hypothesis Hwf : well_formed g = true.
Hypothesis Hnonneg : nonneg g = true.

Lemma init_links_ok : links_ok g s (init_state g s).
Proof.
  unfold init_state, links_ok. split.
  - intros v u. rewrite dget_map_const. destruct (dget g v); discriminate.
  - intros v d. rewrite dget_dset. destruct (String.eqb_spec v s); auto.
    rewrite dget_map_const. destruct (dget g v); discriminate.
Qed.

Lemma relax_links_ok cd u st v w st' :
  0 <= w -> weight_of g u v = Some w ->
  dget (fst (fst st)) u = Some (Fin cd) ->
  links_ok g s st -> relax cd u st (v, w) = Ok st' -> links_ok g s st'.
Proof.
  destruct st as [[dist prev] q]. simpl. intros Hw E Du [L R] X.
  apply relax_cases in X.
  destruct X as (dv & Ev & [[Lt ->] | [Lt ->]]); [|now split].
  assert (Nu : u <> v).
  { intros ->. pose proof (lookup_above _ _ _ _ _ Ev Lt Du). lia. }
  split.
  - intros y z. rewrite dget_dset. destruct (String.eqb_spec y v); subst.
    + intros [= <-]. exists w, cd, (cd + w).
      rewrite dget_dset_other, dget_dset_same by assumption.
      repeat split; auto. lia.
    + intros H. destruct (L _ _ H) as (w' & dz & dy & W & Dz & Dy & Le).
      rewrite (dget_dset_other dist v _ y) by assumption.
      destruct (String.eqb_spec z v); subst.
      * exists w', (cd + w), dy. rewrite dget_dset_same.
        repeat split; auto.
        pose proof (lookup_above _ _ _ _ _ Ev Lt Dz). lia.
      * exists w', dz, dy. now rewrite dget_dset_other.
  - intros y d. rewrite !dget_dset. destruct (String.eqb_spec y v); subst.
    + intros _. right. now exists u.
    + apply R.
Qed.

Lemma main_loop_links_ok n st dist prev :
  tree_ok s st /\ links_ok g s st ->
  main_loop n g st = Ok (dist, prev) ->
  tree_ok s (dist, prev, []) /\ links_ok g s (dist, prev, []).
Proof.
  apply (main_loop_rule (fun st => tree_ok s st /\ links_ok g s st) g).
  - intros d p cd u q dc [(Qn & Q9 & Ds & Ps & J & E) L] _ _. split; auto.
    repeat split; auto.
    + intros d' x I. apply (Qn d' x). now right.
    + intros d' x I. apply Q9. now right.
  - intros d p cd u q dc items st' [(Qn & Q9 & Ds & Ps & J & E) L] Du C G R.
    assert (Hcd : 0 <= cd) by (apply (Qn cd u); now left).
    destruct (Q9 cd u (or_introl eq_refl)) as (d' & D' & L').
    rewrite Du in D'. inversion D'; subst.
    rewrite num_ltb_Fin in C. apply Z.ltb_ge in C.
    assert (d' = cd) as -> by lia.
    assert (T : tree_ok s (d, p, q)).
    { repeat split; auto.
      - intros d'' x I. apply (Qn d'' x). now right.
      - intros d'' x I. apply Q9. now right. }
    assert (X : (tree_ok s st' /\ dget (fst (fst st')) u = Some (Fin cd)) /\
                links_ok g s st').
    { refine (relax_all_rule
                (fun st => (tree_ok s st /\
                            dget (fst (fst st)) u = Some (Fin cd)) /\
                           links_ok g s st)
                cd u items _ (d, p, q) st' (conj (conj T Du) L) R).
      intros st0 [v w] st1 I [A B] R1.
      assert (Hw : 0 <= w) by (eapply nonneg_spec; eauto).
      split.
      - apply (relax_tree_ok s cd u st0 v w st1); auto.
      - apply (relax_links_ok cd u st0 v w st1); auto; try tauto.
        eapply well_formed_spec; eauto. }
    tauto.
Qed.

End Links.

Lemma walk_back_acc prev n : forall cur acc,
  walk_back n prev cur acc =
  match walk_back n prev cur [] with
  | Ok l => Ok (acc ++ l)
  | KeyError k => KeyError k
  | OutOfFuel => OutOfFuel
  end.
Proof.
  induction n as [|n IH]; intros cur acc; [reflexivity|].
  simpl. destruct cur as [c|]; [|now rewrite app_nil_r].
  unfold lookup. destruct (dget prev c) as [p|]; cbn [bind]; auto.
  rewrite (IH p (acc ++ [c])), (IH p [c]).
  destruct (walk_back n prev p []); auto. now rewrite app_assoc.
Qed.

(** One step of the walk along the predecessors. *)
Lemma walk_back_step prev n c l :
  walk_back n prev (Some c) [] = Ok l ->
  exists p l',
    dget prev c = Some p /\ l = c :: l' /\
    match p with
    | None => l' = []
    | Some u => exists m, (m < n)%nat /\ walk_back m prev (Some u) [] = Ok l'
    end.
Proof.
  destruct n as [|n]; [discriminate|]. simpl. unfold lookup.
  destruct (dget prev c) as [p|]; cbn [bind]; [|discriminate].
  rewrite walk_back_acc. intros H. exists p.
  destruct (walk_back n prev p []) as [l'| |] eqn:W; try discriminate.
  inversion H; subst. exists l'. repeat split.
  destruct p as [u|].
  - exists n. split; auto.
  - destruct n; [discriminate|]. simpl in W. now inversion W.
Qed.

Lemma walk_back_suffix prev n : forall u l c,
  walk_back n prev (Some u) [] = Ok l -> In c l ->
  exists l1 l2 m, l = l1 ++ c :: l2 /\
                  walk_back m prev (Some c) [] = Ok (c :: l2).
Proof.
  induction n as [n IH] using lt_wf_ind. intros u l c W I.
  destruct (walk_back_step _ _ _ _ W) as (p & l' & P & -> & Hp).
  destruct I as [<- | I].
  - exists [], l', n. split; auto.
  - destruct p as [u'|]; [|subst; destruct I].
    destruct Hp as (m & Lt & W').
    destruct (IH m Lt u' l' c W' I) as (l1 & l2 & m' & -> & W'').
    exists (u :: l1), l2, m'. split; auto.
Qed.

Lemma walk_back_NoDup prev n : forall c l,
  walk_back n prev (Some c) [] = Ok l -> NoDup l.
Proof.
  induction n as [n IH] using lt_wf_ind. intros c l W.
  destruct (walk_back_step _ _ _ _ W) as (p & l' & P & -> & Hp).
  destruct p as [u|]; [|subst; constructor; [intros []|constructor]].
  destruct Hp as (m & Lt & W'). constructor; [|eapply IH; eauto].
  intros I.
  destruct (walk_back_suffix _ _ _ _ _ W' I) as (l1 & l2 & m' & E & W'').
  pose proof (walk_back_mono prev n _ _ _ (Nat.max n m') W
                ltac:(discriminate) (Nat.le_max_l _ _)) as A.
  pose proof (walk_back_mono prev m' _ _ _ (Nat.max n m') W''
                ltac:(discriminate) (Nat.le_max_r _ _)) as B.
  rewrite A in B. inversion B as [B']. rewrite B' in E.
  apply (f_equal (@List.length string)) in E.
  rewrite length_app in E. simpl in E. lia.
Qed.

Lemma walk_back_path (g : graph) (s : string) dist prev :
  tree_ok s (dist, prev, []) -> links_ok g s (dist, prev, []) ->
  (forall x d, dget dist x = Some (Fin d) -> relaxed g dist x d) ->
  forall n c l d,
    walk_back n prev (Some c) [] = Ok l -> dget dist c = Some (Fin d) ->
    is_path g s c (rev l) d.
Proof.
  intros (_ & _ & Ds & _) [L R] Rx.
  induction n as [n IH] using lt_wf_ind. intros c l d W Dc.
  destruct (walk_back_step _ _ _ _ W) as (p & l' & P & -> & Hp).
  destruct p as [u|].
  - destruct Hp as (m & Lt & W').
    destruct (L _ _ P) as (w & du & dc & E & Du & Dc' & Le).
    assert (dc = d) as -> by congruence.
    assert (Ge : d <= du + w).
    { unfold weight_of in E. destruct (dget g u) as [items|] eqn:G;
        [|discriminate].
      apply dget_In in E. destruct (Rx u du Du items c w G E) as (d' & D' & Le').
      congruence. }
    assert (d = du + w) as -> by lia.
    destruct (IH m Lt u l' du W' Du) as (Hh & Hl & Hw).
    simpl rev. repeat split.
    + destruct (rev l'); [discriminate | exact Hh].
    + apply last_last.
    + eapply path_weight_snoc; eauto.
  - subst l'. destruct (R c d Dc) as [-> | [u Hu]]; [|congruence].
    assert (d = 0) as -> by congruence. repeat split.
Qed.

(** X1. In a closed graph with non-negative integer weights (Python
    [int]s, as in the seed graph), for two places of the graph with the
    destination reachable from the source, the list returned is a simple
    path of the graph from the source to the destination, and the sum of
    its edge weights is the distance returned. *)
Theorem returned_path_has_returned_weight (g : graph)
    (source destination : string) :
  well_formed g = true -> closed g = true -> nonneg g = true ->
  dmem g source = true -> dmem g destination = true ->
  reachable g source destination ->
  exists n path d,
    (forall fuel, (n <= fuel)%nat ->
       dijkstra_shortest_path fuel g source destination =
       Ok (path, Fin d)) /\
    simple_path g source destination path d.
Proof.
  intros Wf C N Hs He U. apply dmem_keys in Hs, He.
  destruct (query_returns g source destination C N Hs He)
    as (n & dist & prev & sp & d & M & W & L & R).
  destruct (query_final g source n dist prev C N Hs M)
    as (_ & (_ & _ & Ds & _) & Rx & _).
  destruct (main_loop_links_ok g source Wf N n _ dist prev
              (conj (init_tree_ok source g) (init_links_ok g source)) M)
    as [T Lk].
  apply reachable_walk in U. destruct U as [d0 U].
  destruct (walk_lower_bound g source dist Rx Ds destination d0 U)
    as (de & De & _).
  assert (d = Fin de) as -> by congruence.
  exists n, (rev sp), de. split; auto. split.
  - eapply walk_back_path; eauto.
  - apply NoDup_rev. eapply walk_back_NoDup; eauto.
Qed.

Lemma returned_path_has_returned_weight_witness :
  exists n path d,
    (forall fuel, (n <= fuel)%nat ->
       dijkstra_shortest_path fuel seed_graph "Korangi" "Clifton" =
       Ok (path, Fin d)) /\
    simple_path seed_graph "Korangi" "Clifton" path d.
Proof.
  apply (returned_path_has_returned_weight seed_graph "Korangi" "Clifton");
    try reflexivity.
  exists ["Korangi"; "Malir"; "Saddar"; "Clifton"], 18. repeat split.
Defined.

(** ** Distances between queries *)

(** The distance returned is the least weight of a walk, or +infinity when
    there is no walk. *)
Lemma query_distance (g : graph) (s e : string) :
  well_formed g = true -> closed g = true -> nonneg g = true ->
  In s (keys g) -> In e (keys g) ->
  exists n path d,
    (forall fuel, (n <= fuel)%nat ->
       dijkstra_shortest_path fuel g s e = Ok (path, d)) /\
    (forall a, d = Fin a -> walk g s e a) /\
    (forall a, walk g s e a -> exists b, d = Fin b /\ b <= a).
Proof.
  intros Wf C N Hs He.
  destruct (query_returns g s e C N Hs He)
    as (n & dist & prev & sp & d & M & W & L & R).
  destruct (query_final g s n dist prev C N Hs M)
    as (_ & (_ & _ & Ds & _) & Rx & S).
  exists n, (rev sp), d. repeat split; auto.
  - intros a ->. now apply (S Wf).
  - intros a H.
    destruct (walk_lower_bound g s dist Rx Ds e a H) as (b & Db & Le).
    exists b. split; auto. congruence.
Qed.

Lemma walk_reverse g s e d :
  symmetric g -> walk g s e d -> walk g e s d.
Proof.
  intros S H. induction H as [|v x d w H IH W]; [constructor|].
  replace (d + w) with (w + d) by lia. eapply walk_cons; eauto.
Qed.

Lemma walk_trans g s m e d1 d2 :
  walk g s m d1 -> walk g m e d2 -> walk g s e (d1 + d2).
Proof.
  intros H1 H2. induction H2 as [|v x d w H IH W].
  - now replace (d1 + 0) with d1 by lia.
  - replace (d1 + (d + w)) with (d1 + d + w) by lia. eapply walk_step; eauto.
Qed.

(** X2. In a symmetric, closed graph with non-negative integer weights
    (Python [int]s, as in the seed graph), for two places [a] and [b] of
    the graph, the query from [a] to [b] and the query from [b] to [a]
    return the same distance. *)
Theorem distance_is_symmetric (g : graph) (a b : string) :
  well_formed g = true -> closed g = true -> nonneg g = true ->
  symmetric g -> dmem g a = true -> dmem g b = true ->
  exists n, forall fuel, (n <= fuel)%nat ->
    exists path path' d,
      dijkstra_shortest_path fuel g a b = Ok (path, d) /\
      dijkstra_shortest_path fuel g b a = Ok (path', d).
Proof.
  intros Wf C N S Ha Hb. apply dmem_keys in Ha, Hb.
  destruct (query_distance g a b Wf C N Ha Hb) as (n1 & p1 & d1 & R1 & U1 & L1).
  destruct (query_distance g b a Wf C N Hb Ha) as (n2 & p2 & d2 & R2 & U2 & L2).
  assert (d1 = d2) as <-.
  { destruct d1 as [x|], d2 as [y|]; auto.
    - destruct (L2 x (walk_reverse _ _ _ _ S (U1 x eq_refl))) as (y' & E & Le).
      destruct (L1 y (walk_reverse _ _ _ _ S (U2 y eq_refl))) as (x' & E' & Le').
      inversion E; inversion E'; subst. f_equal. lia.
    - destruct (L2 x (walk_reverse _ _ _ _ S (U1 x eq_refl))) as (y' & E & _).
      discriminate.
    - destruct (L1 y (walk_reverse _ _ _ _ S (U2 y eq_refl))) as (x' & E & _).
      discriminate. }
  exists (Nat.max n1 n2). intros fuel L. exists p1, p2, d1. split.
  - apply R1. lia.
  - apply R2. lia.
Qed.

Lemma distance_is_symmetric_witness :
  exists n, forall fuel, (n <= fuel)%nat ->
    exists path path' d,
      dijkstra_shortest_path fuel seed_graph "Gulshan" "Defence" =
        Ok (path, d) /\
      dijkstra_shortest_path fuel seed_graph "Defence" "Gulshan" =
        Ok (path', d).
Proof.
  apply (distance_is_symmetric seed_graph "Gulshan" "Defence");
    try reflexivity.
  apply symmetricb_sound. reflexivity.
Defined.

(** X3. Going through a third place is never shorter. In a closed graph
    with non-negative integer weights (Python [int]s, as in the seed
    graph), for three places [a], [m] and [b] of the graph: when the
    queries from [a] to [m] and from [m] to [b] return finite distances,
    the query from [a] to [b] returns a finite distance that is at most
    their sum. *)
Theorem distance_triangle (g : graph) (a m b : string) :
  well_formed g = true -> closed g = true -> nonneg g = true ->
  dmem g a = true -> dmem g m = true -> dmem g b = true ->
  exists n, forall fuel, (n <= fuel)%nat ->
    exists p1 p2 p3 d1 d2 d3,
      dijkstra_shortest_path fuel g a m = Ok (p1, d1) /\
      dijkstra_shortest_path fuel g m b = Ok (p2, d2) /\
      dijkstra_shortest_path fuel g a b = Ok (p3, d3) /\
      forall x y, d1 = Fin x -> d2 = Fin y ->
        exists z, d3 = Fin z /\ z <= x + y.
Proof.
  intros Wf C N Ha Hm Hb. apply dmem_keys in Ha, Hm, Hb.
  destruct (query_distance g a m Wf C N Ha Hm) as (n1 & p1 & d1 & R1 & U1 & _).
  destruct (query_distance g m b Wf C N Hm Hb) as (n2 & p2 & d2 & R2 & U2 & _).
  destruct (query_distance g a b Wf C N Ha Hb) as (n3 & p3 & d3 & R3 & _ & L3).
  exists (Nat.max n1 (Nat.max n2 n3)). intros fuel L.
  exists p1, p2, p3, d1, d2, d3. repeat split.
  - apply R1. lia.
  - apply R2. lia.
  - apply R3. lia.
  - intros x y E1 E2. apply L3. eapply walk_trans; eauto.
Qed.

Lemma distance_triangle_witness :
  exists n, forall fuel, (n <= fuel)%nat ->
    exists p1 p2 p3 d1 d2 d3,
      dijkstra_shortest_path fuel seed_graph "Jauhar" "Korangi" =
        Ok (p1, d1) /\
      dijkstra_shortest_path fuel seed_graph "Korangi" "Defence" =
        Ok (p2, d2) /\
      dijkstra_shortest_path fuel seed_graph "Jauhar" "Defence" =
        Ok (p3, d3) /\
      forall x y, d1 = Fin x -> d2 = Fin y ->
        exists z, d3 = Fin z /\ z <= x + y.
Proof.
  apply (distance_triangle seed_graph "Jauhar" "Korangi" "Defence");
    reflexivity.
Defined.

(** ** The store keeps what the engine needs *)

Lemma In_dset {V : Type} (m : dict V) a x k v :
  In (k, v) (dset m a x) -> (k = a /\ v = x) \/ In (k, v) m.
Proof.
  induction m as [|[k0 v0] m IH]; simpl.
  - intros [E | []]. inversion E; auto.
  - destruct (String.eqb_spec a k0); subst; simpl.
    + intros [E | I]; auto. inversion E; auto.
    + intros [E | I]; auto. destruct (IH I); auto.
Qed.

Lemma In_ddel {V : Type} (m : dict V) a k v :
  In (k, v) (ddel m a) -> In (k, v) m /\ k <> a.
Proof.
  induction m as [|[k0 v0] m IH]; simpl; [tauto|].
  destruct (String.eqb_spec a k0); subst; simpl.
  - intros I. destruct (IH I). auto.
  - intros [E | I].
    + inversion E; subst. auto.
    + destruct (IH I). auto.
Qed.

Lemma closed_iff g :
  closed g = true <->
  forall k nb x w, In (k, nb) g -> In (x, w) nb -> dmem g x = true.
Proof.
  unfold closed. rewrite forallb_forall. split.
  - intros H k nb x w I J. specialize (H _ I). simpl in H.
    rewrite forallb_forall in H. apply (H _ J).
  - intros H [k nb] I. simpl. rewrite forallb_forall. intros [x w] J.
    simpl. eapply H; eauto.
Qed.

Lemma nonneg_iff g :
  nonneg g = true <->
  forall k nb x w, In (k, nb) g -> In (x, w) nb -> 0 <= w.
Proof.
  unfold nonneg. rewrite forallb_forall. split.
  - intros H k nb x w I J. specialize (H _ I). simpl in H.
    rewrite forallb_forall in H. specialize (H _ J). simpl in H. lia.
  - intros H [k nb] I. simpl. rewrite forallb_forall. intros [x w] J.
    simpl. apply Z.leb_le. eapply H; eauto.
Qed.

Lemma dmem_dset {V : Type} (m : dict V) a x k :
  dmem (dset m a x) k = String.eqb k a || dmem m k.
Proof.
  unfold dmem. rewrite dget_dset. destruct (String.eqb k a); auto.
Qed.

Lemma closed_set_weight g a b w :
  closed g = true -> dmem g b = true -> closed (set_weight g a b w) = true.
Proof.
  rewrite !closed_iff. intros C Mb k nb x w' I J.
  rewrite dmem_set_weight. unfold set_weight in I.
  destruct (dget g a) as [na|] eqn:G; [|eauto].
  apply In_dset in I. destruct I as [[-> ->] | I]; [|eauto].
  apply In_dset in J. destruct J as [[-> ->] | J]; auto.
  apply dget_In in G. eauto.
Qed.

Lemma nonneg_set_weight g a b w :
  nonneg g = true -> 0 <= w -> nonneg (set_weight g a b w) = true.
Proof.
  rewrite !nonneg_iff. intros N Hw k nb x w' I J. unfold set_weight in I.
  destruct (dget g a) as [na|] eqn:G; [|eauto].
  apply In_dset in I. destruct I as [[-> ->] | I]; [|eauto].
  apply In_dset in J. destruct J as [[-> ->] | J]; auto.
  apply dget_In in G. eauto.
Qed.

Lemma closed_set_both g a b w :
  closed g = true -> dmem g a = true -> dmem g b = true ->
  closed (set_both g a b w) = true.
Proof.
  intros C Ma Mb. unfold set_both.
  apply closed_set_weight; [now apply closed_set_weight|].
  now rewrite dmem_set_weight.
Qed.

Lemma nonneg_set_both g a b w :
  nonneg g = true -> 0 <= w -> nonneg (set_both g a b w) = true.
Proof.
  intros N Hw. unfold set_both. now repeat apply nonneg_set_weight.
Qed.

Lemma add_place_closed g p typed :
  closed g = true -> closed (fst (add_place g p typed)) = true.
Proof.
  intros C. unfold add_place. destruct (dmem g p) eqn:M; auto. simpl.
  assert (C0 : closed (dset g p []) = true).
  { rewrite closed_iff in *. intros k nb x w I J. rewrite dmem_dset.
    apply In_dset in I. destruct I as [[-> ->] | I]; [destruct J|].
    rewrite (C _ _ _ _ I J). apply orb_true_r. }
  assert (M0 : dmem (dset g p []) p = true).
  { rewrite dmem_dset, String.eqb_refl. reflexivity. }
  revert C0 M0. generalize (dset g p []). clear.
  induction typed as [|[nb [w|]] typed IH]; simpl; intros g C M; auto;
    destruct (dmem g nb) eqn:Mn; auto.
  apply IH.
  - now apply closed_set_both.
  - unfold set_both. now rewrite !dmem_set_weight.
Qed.

Lemma add_place_nonneg g p typed :
  nonneg g = true -> typed_nonneg typed = true ->
  nonneg (fst (add_place g p typed)) = true.
Proof.
  intros N T. unfold add_place. destruct (dmem g p) eqn:M; auto. simpl.
  assert (N0 : nonneg (dset g p []) = true).
  { rewrite nonneg_iff in *. intros k nb x w I J.
    apply In_dset in I. destruct I as [[-> ->] | I]; [destruct J|eauto]. }
  unfold typed_nonneg in T. revert N0 T. generalize (dset g p []). clear.
  induction typed as [|[nb [w|]] typed IH]; simpl; intros g N T; auto.
  - apply andb_prop in T. destruct T as [Hw T].
    destruct (dmem g nb) eqn:Mn; auto.
    apply IH; auto. apply nonneg_set_both; auto. lia.
  - destruct (dmem g nb); auto.
Qed.

Lemma add_route_closed g c1 c2 d :
  closed g = true -> closed (fst (add_route g c1 c2 d)) = true.
Proof.
  intros C. unfold add_route.
  destruct (select_place g c1) as [p1|] eqn:E1; auto.
  destruct (select_place g c2) as [p2|] eqn:E2; auto.
  destruct (falsy _ || falsy _); auto. destruct d as [w|]; auto. simpl.
  apply select_place_key in E1, E2.
  apply closed_set_both; auto; now apply dmem_true.
Qed.

Lemma add_route_nonneg g c1 c2 w :
  nonneg g = true -> 0 <= w ->
  nonneg (fst (add_route g c1 c2 (Some w))) = true.
Proof.
  intros N Hw. unfold add_route.
  destruct (select_place g c1) as [p1|]; auto.
  destruct (select_place g c2) as [p2|]; auto.
  destruct (falsy _ || falsy _); auto. now apply nonneg_set_both.
Qed.

(** Deleting routes of a place that stays leaves the store closed and its
    weights as they were. *)
Lemma dset_ddel_closed g a nb b :
  closed g = true -> dget g a = Some nb ->
  closed (dset g a (ddel nb b)) = true.
Proof.
  rewrite !closed_iff. intros C G k n x w I J. rewrite dmem_dset.
  apply In_dset in I. destruct I as [[-> ->] | I].
  - apply In_ddel in J. destruct J as [J _]. apply dget_In in G.
    rewrite (C _ _ _ _ G J). apply orb_true_r.
  - rewrite (C _ _ _ _ I J). apply orb_true_r.
Qed.

Lemma dset_ddel_nonneg g a nb b :
  nonneg g = true -> dget g a = Some nb ->
  nonneg (dset g a (ddel nb b)) = true.
Proof.
  rewrite !nonneg_iff. intros N G k n x w I J.
  apply In_dset in I. destruct I as [[-> ->] | I]; [|eauto].
  apply In_ddel in J. destruct J as [J _]. apply dget_In in G. eauto.
Qed.

Lemma remove_route_keeps (P : dict (dict Z) -> bool) g c1 c2 :
  (forall g a nb b, P g = true -> dget g a = Some nb ->
                    P (dset g a (ddel nb b)) = true) ->
  P g = true -> P (fst (remove_route g c1 c2)) = true.
Proof.
  intros Step H. unfold remove_route.
  destruct (select_place g c1) as [p1|]; auto.
  destruct (select_place g c2) as [p2|]; auto.
  destruct (falsy _ || falsy _); auto.
  destruct (dget g p1) as [nb1|] eqn:G1; auto.
  destruct (dmem nb1 p2); auto.
  pose proof (Step g p1 nb1 p2 H G1) as H1.
  destruct (dget (dset g p1 (ddel nb1 p2)) p2) as [nb2|] eqn:G2; auto.
  destruct (dmem nb2 p1); auto. simpl. now apply Step.
Qed.

Lemma In_remove_place (g : graph) p k n :
  In (k, n) (map (fun kv => (fst kv, ddel (snd kv) p)) (ddel g p)) ->
  exists nb, n = ddel nb p /\ In (k, nb) g /\ k <> p.
Proof.
  intros I. apply in_map_iff in I. destruct I as ([k' nb] & E & I).
  simpl in E. inversion E; subst. apply In_ddel in I. destruct I. eauto.
Qed.

Lemma remove_place_closed g c :
  closed g = true -> closed (fst (remove_place g c)) = true.
Proof.
  intros C. unfold remove_place.
  destruct (select_place g c) as [p|]; auto.
  destruct (falsy _); auto. simpl.
  rewrite closed_iff in *. intros k n x w I J.
  apply In_remove_place in I. destruct I as (nb & -> & I & Nk).
  apply In_ddel in J. destruct J as [J Nx].
  pose proof (C _ _ _ _ I J) as M. unfold dmem in *.
  pose proof (dget_map_values (fun _ nb => ddel nb p) (ddel g p) x) as X.
  cbv beta in X. rewrite X, dget_ddel.
  apply String.eqb_neq in Nx. rewrite Nx.
  destruct (dget g x); [reflexivity | discriminate].
Qed.

Lemma remove_place_nonneg g c :
  nonneg g = true -> nonneg (fst (remove_place g c)) = true.
Proof.
  intros N. unfold remove_place.
  destruct (select_place g c) as [p|]; auto.
  destruct (falsy _); auto. simpl.
  rewrite nonneg_iff in *. intros k n x w I J.
  apply In_remove_place in I. destruct I as (nb & -> & I & Nk).
  apply In_ddel in J. destruct J as [J Nx]. eauto.
Qed.

(** X4. Closed neighbor references survive every mutation of the shell: in
    the store left by [add_place], [add_route], [remove_route] or
    [remove_place] every neighbor listed is still a place. *)
Theorem mutations_preserve_closure (g : graph) :
  closed g = true ->
  (forall new_place typed, closed (fst (add_place g new_place typed)) = true) /\
  (forall c1 c2 distance, closed (fst (add_route g c1 c2 distance)) = true) /\
  (forall c1 c2, closed (fst (remove_route g c1 c2)) = true) /\
  (forall c, closed (fst (remove_place g c)) = true).
Proof.
  intros C. repeat split; intros.
  - now apply add_place_closed.
  - now apply add_route_closed.
  - apply remove_route_keeps; auto. intros. now apply dset_ddel_closed.
  - now apply remove_place_closed.
Qed.

Lemma mutations_preserve_closure_witness :
  closed (fst (add_place seed_graph "Lyari" [("Saddar", Some 5)])) = true /\
  closed (fst (add_route seed_graph (Some 1) (Some 7) (Some 30))) = true /\
  closed (fst (remove_route seed_graph (Some 2) (Some 3))) = true /\
  closed (fst (remove_place seed_graph (Some 4))) = true.
Proof.
  destruct (mutations_preserve_closure seed_graph eq_refl) as (A & B & C & D).
  repeat split; auto.
Defined.

(** X5. Weights stay non-negative as long as the distances typed are: the
    store left by [add_place] or [add_route] with non-negative distances,
    and by [remove_route] or [remove_place], has no negative weight. *)
Theorem mutations_preserve_nonneg (g : graph) :
  nonneg g = true ->
  (forall new_place typed,
     typed_nonneg typed = true ->
     nonneg (fst (add_place g new_place typed)) = true) /\
  (forall c1 c2 w,
     0 <= w -> nonneg (fst (add_route g c1 c2 (Some w))) = true) /\
  (forall c1 c2, nonneg (fst (remove_route g c1 c2)) = true) /\
  (forall c, nonneg (fst (remove_place g c)) = true).
Proof.
  intros N. repeat split; intros.
  - now apply add_place_nonneg.
  - now apply add_route_nonneg.
  - apply remove_route_keeps; auto. intros. now apply dset_ddel_nonneg.
  - now apply remove_place_nonneg.
Qed.

Lemma mutations_preserve_nonneg_witness :
  nonneg (fst (add_place seed_graph "Lyari" [("Saddar", Some 0)])) = true /\
  nonneg (fst (add_route seed_graph (Some 1) (Some 7) (Some 30))) = true /\
  nonneg (fst (remove_route seed_graph (Some 2) (Some 3))) = true /\
  nonneg (fst (remove_place seed_graph (Some 4))) = true.
Proof.
  destruct (mutations_preserve_nonneg seed_graph eq_refl) as (A & B & C & D).
  repeat split; auto; apply B; lia.
Defined.

(** A store built by the shell is a dictionary of dictionaries, closed,
    symmetric and without negative weights. *)
Lemma built_invariants g :
  built g ->
  well_formed g = true /\ closed g = true /\ nonneg g = true /\ symmetric g.
Proof.
  intros B. induction B as [|g p typed B (W & C & N & S) T
                            |g c B (W & C & N & S)
                            |g c1 c2 w B (W & C & N & S) Hw
                            |g c1 c2 B (W & C & N & S)].
  - repeat split; try reflexivity. apply symmetricb_sound. reflexivity.
  - repeat split.
    + now apply (proj2 (store_stays_well_formed g) W).
    + now apply add_place_closed.
    + now apply add_place_nonneg.
    + now apply add_place_symmetric.
  - repeat split.
    + now apply (proj2 (store_stays_well_formed g) W).
    + now apply remove_place_closed.
    + now apply remove_place_nonneg.
    + now apply remove_place_symmetric.
  - repeat split.
    + now apply (proj2 (store_stays_well_formed g) W).
    + now apply add_route_closed.
    + now apply add_route_nonneg.
    + now apply add_route_symmetric.
  - repeat split.
    + now apply (proj2 (store_stays_well_formed g) W).
    + apply remove_route_keeps; auto. intros. now apply dset_ddel_closed.
    + apply remove_route_keeps; auto. intros. now apply dset_ddel_nonneg.
    + now apply remove_route_symmetric.
Qed.

(** X6. Whatever places and routes were added and removed from the seed
    graph, with non-negative distances typed, choice 1 of the menu gets an
    answer: the engine neither raises [KeyError] nor runs for ever, and a
    path is reported only with a finite distance. *)
Theorem menu_query_is_answered (g : graph) (choice1 choice2 : option Z) :
  built g ->
  exists n, forall fuel, (n <= fuel)%nat ->
    exists a,
      find_shortest_path fuel g choice1 choice2 = Ok a /\
      match a with
      | ShortestPath path d => path <> [] /\ d <> Inf
      | _ => True
      end.
Proof.
  intros B. destruct (built_invariants g B) as (W & C & N & S).
  unfold find_shortest_path.
  destruct (select_place g choice1) as [s|] eqn:E1;
    [|exists 0%nat; intros; now exists NoQuery].
  destruct (select_place g choice2) as [e|] eqn:E2;
    [|exists 0%nat; intros; now exists NoQuery].
  destruct (falsy (Some s) || falsy (Some e));
    [exists 0%nat; intros; now exists NoQuery|].
  apply select_place_key in E1, E2.
  assert (Hs : In s (keys g)) by (apply dmem_keys, dmem_true; auto).
  assert (He : In e (keys g)) by (apply dmem_keys, dmem_true; auto).
  destruct (query_returns g s e C N Hs He)
    as (n & dist & prev & sp & d & _ & _ & _ & R).
  exists n. intros fuel L. pose proof (R fuel L) as Rf. rewrite Rf.
  cbn [bind]. destruct d as [z|]; simpl.
  - eexists. split; [reflexivity|]. split; [|discriminate].
    apply dijkstra_path_ends in Rf. destruct Rf as [l ->].
    destruct l; discriminate.
  - eexists. split; [reflexivity|]. exact I.
Qed.

Lemma menu_query_is_answered_witness :
  exists n, forall fuel, (n <= fuel)%nat ->
    exists a,
      find_shortest_path fuel
        (fst (remove_route
                (fst (add_route seed_graph (Some 1) (Some 7) (Some 2)))
                (Some 4) (Some 5)))
        (Some 3) (Some 6) = Ok a /\
      match a with
      | ShortestPath path d => path <> [] /\ d <> Inf
      | _ => True
      end.
Proof.
  apply menu_query_is_answered.
  apply built_remove_route. apply built_add_route; [apply built_seed | lia].
Defined.

(** ** Queries before and after a mutation *)

Lemma heavier_walk (g g' : graph) s e d' :
  (forall u v w', weight_of g' u v = Some w' ->
     exists w, weight_of g u v = Some w /\ w <= w') ->
  walk g' s e d' -> exists d, walk g s e d /\ d <= d'.
Proof.
  intros H W. induction W as [|v x d' w' W (d & Wd & Le) E].
  - exists 0. split; [constructor | lia].
  - destruct (H _ _ _ E) as (w & Ew & Lw). exists (d + w). split; [|lia].
    eapply walk_step; eauto.
Qed.

(** Where every route of [g'] is a route of [g] that weighs no more, no
    query is answered with a shorter distance on [g'] than on [g]. *)
Lemma heavier_farther (g g' : graph) s e :
  well_formed g = true -> closed g = true -> nonneg g = true ->
  well_formed g' = true -> closed g' = true -> nonneg g' = true ->
  In s (keys g) -> In e (keys g) -> In s (keys g') -> In e (keys g') ->
  (forall u v w', weight_of g' u v = Some w' ->
     exists w, weight_of g u v = Some w /\ w <= w') ->
  exists n, forall fuel, (n <= fuel)%nat ->
    exists path d path' d',
      dijkstra_shortest_path fuel g s e = Ok (path, d) /\
      dijkstra_shortest_path fuel g' s e = Ok (path', d') /\
      forall b, d' = Fin b -> exists a, d = Fin a /\ a <= b.
Proof.
  intros W C N W' C' N' Hs He Hs' He' H.
  destruct (query_distance g s e W C N Hs He) as (n1 & p1 & d1 & R1 & _ & L1).
  destruct (query_distance g' s e W' C' N' Hs' He')
    as (n2 & p2 & d2 & R2 & U2 & _).
  exists (Nat.max n1 n2). intros fuel L. exists p1, d1, p2, d2.
  repeat split.
  - apply R1. lia.
  - apply R2. lia.
  - intros b E.
    destruct (heavier_walk g g' s e b H (U2 b E)) as (d & Wd & Le).
    destruct (L1 d Wd) as (a & Ea & La). exists a. split; auto. lia.
Qed.

Lemma keys_dset_present {V : Type} (m : dict V) k v :
  dmem m k = true -> keys (dset m k v) = keys m.
Proof.
  unfold dmem. induction m as [|[k0 v0] m IH]; simpl; [discriminate|].
  destruct (String.eqb_spec k k0); subst; simpl; auto.
  intros H. f_equal. auto.
Qed.

Lemma keys_set_weight g a b w : keys (set_weight g a b w) = keys g.
Proof.
  unfold set_weight. destruct (dget g a) as [nb|] eqn:G; auto.
  apply keys_dset_present. unfold dmem. now rewrite G.
Qed.

Lemma keys_set_both g a b w : keys (set_both g a b w) = keys g.
Proof. unfold set_both. now rewrite !keys_set_weight. Qed.



Lemma weight_of_dset_ddel g a nb b x y w :
  dget g a = Some nb ->
  weight_of (dset g a (ddel nb b)) x y = Some w -> weight_of g x y = Some w.
Proof.
  intros G. rewrite weight_of_dset. unfold weight_of.
  destruct (String.eqb_spec x a); subst; auto.
  rewrite G, dget_ddel. destruct (String.eqb y b); [discriminate | auto].
Qed.

Lemma remove_route_routes g c1 c2 x y w :
  weight_of (fst (remove_route g c1 c2)) x y = Some w ->
  weight_of g x y = Some w.
Proof.
  unfold remove_route.
  destruct (select_place g c1) as [p1|]; auto.
  destruct (select_place g c2) as [p2|]; auto.
  destruct (falsy _ || falsy _); auto.
  destruct (dget g p1) as [nb1|] eqn:G1; auto.
  destruct (dmem nb1 p2); auto.
  destruct (dget (dset g p1 (ddel nb1 p2)) p2) as [nb2|] eqn:G2; simpl;
    [|now apply weight_of_dset_ddel].
  destruct (dmem nb2 p1); simpl; [|now apply weight_of_dset_ddel].
  intros H. apply weight_of_dset_ddel in H; auto.
  eapply weight_of_dset_ddel; eauto.
Qed.

Lemma remove_route_keys g c1 c2 :
  keys (fst (remove_route g c1 c2)) = keys g.
Proof.
  unfold remove_route.
  destruct (select_place g c1) as [p1|]; auto.
  destruct (select_place g c2) as [p2|]; auto.
  destruct (falsy _ || falsy _); auto.
  destruct (dget g p1) as [nb1|] eqn:G1; auto.
  destruct (dmem nb1 p2); auto.
  assert (K1 : keys (dset g p1 (ddel nb1 p2)) = keys g).
  { apply keys_dset_present. unfold dmem. now rewrite G1. }
  destruct (dget (dset g p1 (ddel nb1 p2)) p2) as [nb2|] eqn:G2; auto.
  destruct (dmem nb2 p1); auto. simpl. rewrite <- K1.
  apply keys_dset_present. unfold dmem. now rewrite G2.
Qed.

(** X8. [remove_route] shortens no distance, whatever is picked: a query
    answered with a finite distance afterwards was answered with a finite
    distance that is no greater before. *)
Theorem removing_a_route_shortens_nothing (g : graph)
    (c1 c2 : option Z) (s e : string) :
  well_formed g = true -> closed g = true -> nonneg g = true ->
  dmem g s = true -> dmem g e = true ->
  exists n, forall fuel, (n <= fuel)%nat ->
    exists path d path' d',
      dijkstra_shortest_path fuel g s e = Ok (path, d) /\
      dijkstra_shortest_path fuel (fst (remove_route g c1 c2)) s e =
        Ok (path', d') /\
      forall b, d' = Fin b -> exists a, d = Fin a /\ a <= b.
Proof.
  intros W C N Hs He. apply dmem_keys in Hs, He.
  apply heavier_farther; auto.
  - now apply (proj2 (store_stays_well_formed g) W).
  - apply remove_route_keeps; auto. intros. now apply dset_ddel_closed.
  - apply remove_route_keeps; auto. intros. now apply dset_ddel_nonneg.
  - now rewrite remove_route_keys.
  - now rewrite remove_route_keys.
  - intros u v w' H. apply remove_route_routes in H. exists w'. split; auto.
    lia.
Qed.

Lemma removing_a_route_shortens_nothing_witness :
  exists n, forall fuel, (n <= fuel)%nat ->
    exists path d path' d',
      dijkstra_shortest_path fuel seed_graph "Jauhar" "Korangi" =
        Ok (path, d) /\
      dijkstra_shortest_path fuel
        (fst (remove_route seed_graph (Some 1) (Some 4)))
        "Jauhar" "Korangi" = Ok (path', d') /\
      forall b, d' = Fin b -> exists a, d = Fin a /\ a <= b.
Proof.
  apply (removing_a_route_shortens_nothing seed_graph (Some 1) (Some 4)
           "Jauhar" "Korangi"); reflexivity.
Defined.

(** ** Queries about a place that is not in the graph *)

Lemma unknown_end_lookup (g : graph) s e n dist prev :
  e <> s -> dmem g e = false ->
  main_loop n g (init_state g s) = Ok (dist, prev) ->
  dget prev e = None.
Proof.
  intros Ne A M.
  assert (I0 : dget (fst (fst (init_state g s))) e = None /\
               dget (snd (fst (init_state g s))) e = None).
  { simpl. rewrite dget_dset_other, !dget_map_const by assumption.
    unfold dmem in A. destruct (dget g e); [discriminate | auto]. }
  assert (X : dget dist e = None /\ dget prev e = None); [|tauto].
  refine (main_loop_rule
            (fun st => dget (fst (fst st)) e = None /\
                       dget (snd (fst st)) e = None) g
            (fun _ _ _ _ _ _ P _ _ => P) _ n (init_state g s) dist prev I0 M).
  intros d p cd u q dc items st' P _ _ _ R.
  refine (relax_all_rule
            (fun st => dget (fst (fst st)) e = None /\
                       dget (snd (fst st)) e = None)
            cd u items _ (d, p, q) st' P R).
  clear. intros [[d0 p0] q0] [v w] st1 _ [P1 P2] R. apply relax_cases in R.
  destruct R as (dv & Ev & [[_ ->] | [_ ->]]); auto. simpl in *.
  assert (e <> v) by congruence.
  now rewrite !dget_dset_other.
Qed.

(** X9. A query about a place that is not in the graph raises [KeyError]
    with the name of that place: at once when the start is missing, and,
    in a closed graph with non-negative weights, after the [while queue]
    loop when the start is a place and the end is missing. *)
Theorem unknown_place_key_error (g : graph) (s e : string) :
  (dmem g s = false ->
   forall fuel, dijkstra_shortest_path (S fuel) g s e = KeyError s) /\
  (closed g = true -> nonneg g = true ->
   dmem g s = true -> dmem g e = false ->
   exists n, forall fuel, (n <= fuel)%nat ->
     dijkstra_shortest_path fuel g s e = KeyError e).
Proof.
  split.
  - intros A fuel. unfold dijkstra_shortest_path. simpl. unfold lookup.
    rewrite dget_dset_same. cbn [bind].
    rewrite num_ltb_Fin, Z.ltb_irrefl. unfold dmem in A.
    destruct (dget g s); [discriminate | reflexivity].
  - intros C N Hs A. pose proof Hs as Ks. apply dmem_keys in Ks.
    destruct (loops_terminate g s e N) as (n & T & _).
    destruct (main_loop n g (init_state g s)) as [[dist prev]| |] eqn:M.
    + assert (Ne : e <> s) by congruence.
      pose proof (unknown_end_lookup g s e n dist prev Ne A M) as P.
      assert (D : dijkstra_shortest_path n g s e = KeyError e).
      { unfold dijkstra_shortest_path. rewrite M. cbn [bind].
        destruct n as [|n]; [discriminate|]. simpl. unfold lookup.
        now rewrite P. }
      exists n. intros fuel L. eapply dijkstra_mono; eauto. discriminate.
    + exfalso. revert M. apply main_loop_no_KeyError; auto.
      now apply init_keys_ok.
    + congruence.
Qed.

Lemma unknown_place_key_error_witness :
  (forall fuel,
     dijkstra_shortest_path (S fuel) seed_graph "Lahore" "Malir" =
     KeyError "Lahore") /\
  (exists n, forall fuel, (n <= fuel)%nat ->
     dijkstra_shortest_path fuel seed_graph "Malir" "Lahore" =
     KeyError "Lahore").
Proof.
  split.
  - apply (proj1 (unknown_place_key_error seed_graph "Lahore" "Malir")).
    reflexivity.
  - apply (proj2 (unknown_place_key_error seed_graph "Malir" "Lahore"));
      reflexivity.
Defined.

(** ** The numbered menu of places *)

Lemma In_enumerate l : forall start i p,
  In (i, p) (enumerate start l) <->
  start <= i /\ nth_error l (Z.to_nat (i - start)) = Some p.
Proof.
  induction l as [|x l IH]; intros start i p; simpl.
  - split; [tauto|]. intros [_ H]. destruct (Z.to_nat (i - start)); discriminate.
  - rewrite IH. split.
    + intros [E | [L H]].
      * inversion E; subst. split; [lia|]. now rewrite Z.sub_diag.
      * split; [lia|]. replace (i - start) with (Z.succ (i - (start + 1)))
          by lia. rewrite Z2Nat.inj_succ by lia. exact H.
    + intros [L H]. destruct (Z.eq_dec i start) as [-> | Ne].
      * left. rewrite Z.sub_diag in H. simpl in H. congruence.
      * right. split; [lia|].
        replace (i - start) with (Z.succ (i - (start + 1))) in H by lia.
        rewrite Z2Nat.inj_succ in H by lia. exact H.
Qed.

(** X10. The number printed beside a place by [list_places] is the number
    that selects it: [select_place] returns [p] for the number [i] exactly
    when [list_places] shows the line [i. p]. *)
Theorem listed_number_selects_place (g : graph) (i : Z) (p : string) :
  In (i, p) (list_places g) <-> select_place g (Some i) = Some p.
Proof.
  unfold list_places, select_place. rewrite In_enumerate.
  destruct (Z.leb_spec 1 i) as [L1 | L1]; simpl.
  - destruct (Z.leb_spec i (Z.of_nat (List.length g))) as [L2 | L2].
    + tauto.
    + split; [|discriminate]. intros [_ H]. exfalso.
      assert (Hn : nth_error (keys g) (Z.to_nat (i - 1)) <> None)
        by congruence.
      apply nth_error_Some in Hn. unfold keys in Hn.
      rewrite length_map in Hn. lia.
  - split; [lia | discriminate].
Qed.

(** X11. [select_place] returns nothing exactly when what was typed is not
    a number or is a number outside [1 .. len(graph)]; otherwise it returns
    a place of the graph. *)
Theorem select_place_bounds (g : graph) (choice : option Z) :
  (select_place g choice = None <->
   match choice with
   | None => True
   | Some c => c < 1 \/ Z.of_nat (List.length g) < c
   end) /\
  (forall p, select_place g choice = Some p -> dmem g p = true).
Proof.
  split.
  - unfold select_place. destruct choice as [c|]; [|tauto].
    destruct (Z.leb_spec 1 c) as [L1 | L1]; simpl.
    + destruct (Z.leb_spec c (Z.of_nat (List.length g))) as [L2 | L2].
      * split; [|lia]. intros H. exfalso.
        apply nth_error_None in H. unfold keys in H.
        rewrite length_map in H. lia.
      * split; auto.
    + split; auto.
  - intros p H. apply select_place_key in H. now apply dmem_true.
Qed.

(** ** What each mutation does to the store *)

Lemma keys_ddel {V : Type} (m : dict V) k :
  keys (ddel m k) = filter (fun x => negb (String.eqb k x)) (keys m).
Proof.
  induction m as [|[k0 v0] m IH]; simpl; auto.
  destruct (String.eqb k k0); simpl; auto. now f_equal.
Qed.

Lemma keys_map_values {V W : Type} (f : string * V -> W) (m : dict V) :
  keys (map (fun kv => (fst kv, f kv)) m) = keys m.
Proof. unfold keys. rewrite map_map. reflexivity. Qed.

(** X12. After [remove_place] of a place picked from the menu whose name is
    not the empty string, the place is gone and no remaining place lists it
    as a neighbor; the routes between the other places are as they were,
    and the other places keep their order. For the place named by the empty
    string [remove_place] returns at [if not place] and removes nothing. *)
Theorem remove_place_removes_every_reference (g : graph) (c : option Z)
    (p : string) :
  select_place g c = Some p ->
  if String.eqb p ""
  then remove_place g c = (g, Cancelled)
  else
    snd (remove_place g c) = PlaceRemoved /\
    dmem (fst (remove_place g c)) p = false /\
    (forall x y,
       weight_of (fst (remove_place g c)) x y =
       if String.eqb x p || String.eqb y p then None else weight_of g x y) /\
    keys (fst (remove_place g c)) =
      filter (fun x => negb (String.eqb p x)) (keys g).
Proof.
  intros E. unfold remove_place. rewrite E. cbn [falsy].
  destruct (String.eqb p ""); [reflexivity|]. cbn [fst snd]. repeat split.
  - unfold dmem.
    pose proof (dget_map_values (fun _ nb => ddel nb p) (ddel g p) p) as X.
    cbv beta in X. rewrite X, dget_ddel, String.eqb_refl. reflexivity.
  - intros x y. apply weight_of_remove_place.
  - rewrite (keys_map_values (fun kv => ddel (snd kv) p)). apply keys_ddel.
Qed.

Lemma remove_place_removes_every_reference_witness :
  (snd (remove_place seed_graph (Some 4)) = PlaceRemoved /\
   dmem (fst (remove_place seed_graph (Some 4))) "Malir" = false /\
   (forall x y,
      weight_of (fst (remove_place seed_graph (Some 4))) x y =
      if String.eqb x "Malir" || String.eqb y "Malir" then None
      else weight_of seed_graph x y) /\
   keys (fst (remove_place seed_graph (Some 4))) =
     filter (fun x => negb (String.eqb "Malir" x)) (keys seed_graph)) /\
  remove_place unnamed_graph (Some 8) = (unnamed_graph, Cancelled).
Proof.
  split.
  - exact (remove_place_removes_every_reference seed_graph (Some 4) "Malir"
             eq_refl).
  - exact (remove_place_removes_every_reference unnamed_graph (Some 8) ""
             eq_refl).
Defined.

Lemma dset_same {V : Type} (m : dict V) k v :
  dget m k = Some v -> dset m k v = m.
Proof.
  induction m as [|[k0 v0] m IH]; simpl; [discriminate|].
  destruct (String.eqb_spec k k0); subst.
  - now intros [= ->].
  - intros H. f_equal. auto.
Qed.

Lemma set_weight_same g a b w :
  weight_of g a b = Some w -> set_weight g a b w = g.
Proof.
  unfold weight_of, set_weight. destruct (dget g a) as [nb|] eqn:G;
    [|discriminate].
  intros H. rewrite (dset_same nb b w H). now apply dset_same.
Qed.

Lemma set_both_twice g a b w :
  dmem g a = true -> dmem g b = true ->
  set_both (set_both g a b w) a b w = set_both g a b w.
Proof.
  intros Ma Mb.
  assert (A : weight_of (set_both g a b w) a b = Some w).
  { rewrite weight_of_set_both, !String.eqb_refl by assumption. reflexivity. }
  assert (B : weight_of (set_both g a b w) b a = Some w).
  { rewrite weight_of_set_both, !String.eqb_refl by assumption.
    simpl. now rewrite orb_true_r. }
  unfold set_both at 1. rewrite (set_weight_same _ a b w A).
  now apply set_weight_same.
Qed.

Lemma select_place_same_keys (g g' : graph) c :
  keys g' = keys g -> select_place g' c = select_place g c.
Proof.
  intros K. unfold select_place. destruct c as [c|]; auto.
  rewrite K. replace (List.length g') with (List.length g); auto.
  rewrite <- (length_map fst g), <- (length_map fst g'). fold (keys g).
  fold (keys g'). now rewrite K.
Qed.

(** X13. [add_route] is idempotent: with the same numbers and the same
    distance typed again, the second call leaves the store and the report
    of the first. *)
Theorem add_route_idempotent (g : graph) (c1 c2 : option Z)
    (distance : option Z) :
  add_route (fst (add_route g c1 c2 distance)) c1 c2 distance =
  add_route g c1 c2 distance.
Proof.
  assert (A : fst (add_route g c1 c2 distance) = g \/
              exists p1 p2 w,
                select_place g c1 = Some p1 /\ select_place g c2 = Some p2 /\
                falsy (Some p1) || falsy (Some p2) = false /\
                distance = Some w /\
                add_route g c1 c2 distance =
                (set_both g p1 p2 w, RouteUpdated)).
  { unfold add_route.
    destruct (select_place g c1) as [p1|]; auto.
    destruct (select_place g c2) as [p2|]; auto.
    destruct (falsy (Some p1) || falsy (Some p2)) eqn:F; auto.
    destruct distance as [w|]; auto. right. exists p1, p2, w. auto. }
  destruct A as [-> | (p1 & p2 & w & E1 & E2 & F & -> & A)]; auto.
  rewrite A. simpl. unfold add_route.
  rewrite !(select_place_same_keys g (set_both g p1 p2 w))
    by apply keys_set_both.
  rewrite E1, E2, F. f_equal.
  apply select_place_key in E1, E2. apply dmem_true in E1, E2.
  now apply set_both_twice.
Qed.

Lemma keys_dset_absent {V : Type} (m : dict V) k v :
  dmem m k = false -> keys (dset m k v) = keys m ++ [k].
Proof.
  unfold dmem. induction m as [|[k0 v0] m IH]; simpl; auto.
  destruct (String.eqb_spec k k0); subst; simpl; [discriminate|].
  intros H. f_equal. auto.
Qed.

Lemma connect_keeps p g t :
  dmem g p = true ->
  dmem (connect p g t) p = true /\
  keys (connect p g t) = keys g /\
  (forall x y, x <> p -> y <> p ->
     weight_of (connect p g t) x y = weight_of g x y).
Proof.
  intros M. destruct t as [nb [w|]]; simpl.
  - destruct (dmem g nb) eqn:Mn; auto. repeat split.
    + unfold set_both. now rewrite !dmem_set_weight.
    + apply keys_set_both.
    + intros x y Nx Ny. rewrite weight_of_set_both by assumption.
      apply String.eqb_neq in Nx, Ny. rewrite Nx, Ny.
      now rewrite andb_false_r.
  - destruct (dmem g nb); auto.
Qed.

(** X14. [add_place] refuses a name that is already a place and leaves the
    store as it was; a new name becomes the last place, the places before
    it keep their numbers, and no route between them changes, whatever
    neighbors and distances are typed. *)
Theorem add_place_appends (g : graph) (p : string)
    (typed : list (string * option Z)) :
  (dmem g p = true -> add_place g p typed = (g, AlreadyExists)) /\
  (dmem g p = false ->
   snd (add_place g p typed) = PlaceAdded /\
   keys (fst (add_place g p typed)) = keys g ++ [p] /\
   forall x y, x <> p -> y <> p ->
     weight_of (fst (add_place g p typed)) x y = weight_of g x y).
Proof.
  unfold add_place. split; intros M; rewrite M; auto. simpl.
  split; auto.
  assert (M0 : dmem (dset g p []) p = true).
  { rewrite dmem_dset, String.eqb_refl. reflexivity. }
  assert (K0 : keys (dset g p []) = keys g ++ [p])
    by now apply keys_dset_absent.
  assert (W0 : forall x y, x <> p -> y <> p ->
                 weight_of (dset g p []) x y = weight_of g x y).
  { intros x y Nx _. rewrite weight_of_dset. apply String.eqb_neq in Nx.
    now rewrite Nx. }
  revert M0 K0 W0. generalize (dset g p []). clear M.
  induction typed as [|t typed IH]; simpl; intros g0 M0 K0 W0; auto.
  destruct (connect_keeps p g0 t M0) as (M1 & K1 & W1).
  apply IH; auto.
  - congruence.
  - intros x y Nx Ny. rewrite W1 by assumption. auto.
Qed.

Lemma add_place_appends_witness :
  snd (add_place seed_graph "Lyari" [("Saddar", Some 5); ("Kemari", Some 2)])
    = PlaceAdded /\
  keys (fst (add_place seed_graph "Lyari"
               [("Saddar", Some 5); ("Kemari", Some 2)])) =
    keys seed_graph ++ ["Lyari"] /\
  forall x y, x <> "Lyari" -> y <> "Lyari" ->
    weight_of (fst (add_place seed_graph "Lyari"
                      [("Saddar", Some 5); ("Kemari", Some 2)])) x y =
    weight_of seed_graph x y.
Proof.
  apply (proj2 (add_place_appends seed_graph "Lyari"
                  [("Saddar", Some 5); ("Kemari", Some 2)])).
  reflexivity.
Defined.

(** X15. [remove_route] with the same place picked twice, on a place that is
    its own neighbor (as [add_route] with the same place twice leaves it)
    and whose name is not the empty string, deletes the loop and then
    raises [KeyError] on the second [del]; no other route changes. For the
    place named by the empty string it returns at
    [if not place1 or not place2] and the loop stays. *)
Theorem remove_route_self_loop_raises (g : graph) (c : option Z)
    (p : string) (w : Z) :
  select_place g c = Some p -> weight_of g p p = Some w ->
  if String.eqb p ""
  then remove_route g c c = (g, Cancelled)
  else
    snd (remove_route g c c) = Raised p /\
    forall x y,
      weight_of (fst (remove_route g c c)) x y =
      if String.eqb x p && String.eqb y p then None else weight_of g x y.
Proof.
  intros E Wp.
  destruct (String.eqb p "") eqn:Np.
  { unfold remove_route. rewrite E. cbn [falsy]. now rewrite Np. }
  unfold weight_of in Wp. destruct (dget g p) as [nb|] eqn:G; [|discriminate].
  assert (R : remove_route g c c = (dset g p (ddel nb p), Raised p)).
  { unfold remove_route. rewrite E. cbn [falsy].
    rewrite Np. cbn [orb]. rewrite G.
    unfold dmem at 1. rewrite Wp, dget_dset_same.
    unfold dmem. now rewrite dget_ddel, String.eqb_refl. }
  rewrite R. cbn [fst snd]. split; auto.
  intros x y. rewrite weight_of_dset, dget_ddel. unfold weight_of.
  destruct (String.eqb_spec x p); subst; simpl; auto.
  rewrite G. reflexivity.
Qed.

Lemma remove_route_self_loop_raises_witness :
  (snd (remove_route (fst (add_route seed_graph (Some 2) (Some 2) (Some 1)))
          (Some 2) (Some 2)) = Raised "Gulshan" /\
   forall x y,
     weight_of
       (fst (remove_route
               (fst (add_route seed_graph (Some 2) (Some 2) (Some 1)))
               (Some 2) (Some 2))) x y =
     if String.eqb x "Gulshan" && String.eqb y "Gulshan" then None
     else weight_of (fst (add_route seed_graph (Some 2) (Some 2) (Some 1)))
            x y) /\
  remove_route unnamed_graph (Some 8) (Some 8) = (unnamed_graph, Cancelled).
Proof.
  split.
  - exact (remove_route_self_loop_raises
             (fst (add_route seed_graph (Some 2) (Some 2) (Some 1)))
             (Some 2) "Gulshan" 1 eq_refl eq_refl).
  - exact (remove_route_self_loop_raises unnamed_graph (Some 8) "" 2
             eq_refl eq_refl).
Defined.

(** X16. For two distinct places picked from the menu whose names are not
    the empty string, [remove_route] reports that there is no route and
    leaves the store as it was when the first does not list the second;
    when the two list each other, it deletes the route in both directions
    and changes no other route; when only the first lists the second, it
    deletes that entry and raises [KeyError] on the second [del]. When one
    of the places picked is the place named by the empty string it returns
    at [if not place1 or not place2] and deletes nothing. *)
Theorem remove_route_removes_both_directions (g : graph)
    (c1 c2 : option Z) (p1 p2 : string) :
  select_place g c1 = Some p1 -> select_place g c2 = Some p2 ->
  p1 <> p2 ->
  if String.eqb p1 "" || String.eqb p2 ""
  then remove_route g c1 c2 = (g, Cancelled)
  else
    match weight_of g p1 p2, weight_of g p2 p1 with
    | None, _ => remove_route g c1 c2 = (g, NoRouteExists)
    | Some _, Some _ =>
        snd (remove_route g c1 c2) = RouteRemoved /\
        forall x y,
          weight_of (fst (remove_route g c1 c2)) x y =
          if (String.eqb x p1 && String.eqb y p2)
             || (String.eqb x p2 && String.eqb y p1)
          then None else weight_of g x y
    | Some _, None =>
        snd (remove_route g c1 c2) = Raised p1 /\
        forall x y,
          weight_of (fst (remove_route g c1 c2)) x y =
          if String.eqb x p1 && String.eqb y p2
          then None else weight_of g x y
    end.
Proof.
  intros E1 E2 Ne.
  destruct (String.eqb p1 "" || String.eqb p2 "") eqn:F.
  { unfold remove_route. rewrite E1, E2. cbn [falsy]. now rewrite F. }
  destruct (select_place_key _ _ _ E1) as [nb1 G1].
  destruct (select_place_key _ _ _ E2) as [nb2 G2].
  unfold weight_of at 1 2. rewrite G1, G2.
  destruct (dget nb1 p2) as [w|] eqn:W12.
  2:{ unfold remove_route. rewrite E1, E2. cbn [falsy]. rewrite F, G1.
      unfold dmem. now rewrite W12. }
  destruct (dget nb2 p1) as [w'|] eqn:W21.
  - assert (R : remove_route g c1 c2 =
                (dset (dset g p1 (ddel nb1 p2)) p2 (ddel nb2 p1),
                 RouteRemoved)).
    { unfold remove_route. rewrite E1, E2. cbn [falsy]. rewrite F, G1.
      unfold dmem at 1. rewrite W12.
      rewrite dget_dset_other, G2 by congruence.
      unfold dmem. now rewrite W21. }
    rewrite R. cbn [fst snd]. split; auto.
    intros x y. rewrite !weight_of_dset, !dget_ddel. unfold weight_of.
    destruct (String.eqb_spec x p2); subst.
    + apply String.eqb_neq in Ne. rewrite String.eqb_sym in Ne.
      rewrite Ne. simpl. rewrite G2. reflexivity.
    + simpl. rewrite orb_false_r.
      destruct (String.eqb_spec x p1); subst; simpl; auto.
      rewrite G1. reflexivity.
  - assert (R : remove_route g c1 c2 =
                (dset g p1 (ddel nb1 p2), Raised p1)).
    { unfold remove_route. rewrite E1, E2. cbn [falsy]. rewrite F, G1.
      unfold dmem at 1. rewrite W12.
      rewrite dget_dset_other, G2 by congruence.
      unfold dmem. now rewrite W21. }
    rewrite R. cbn [fst snd]. split; auto.
    intros x y. rewrite weight_of_dset, dget_ddel. unfold weight_of.
    destruct (String.eqb_spec x p1); subst; simpl; auto.
    rewrite G1. reflexivity.
Qed.

Lemma remove_route_removes_both_directions_witness :
  (snd (remove_route seed_graph (Some 1) (Some 2)) = RouteRemoved /\
   forall x y,
     weight_of (fst (remove_route seed_graph (Some 1) (Some 2))) x y =
     if (String.eqb x "Jauhar" && String.eqb y "Gulshan")
        || (String.eqb x "Gulshan" && String.eqb y "Jauhar")
     then None else weight_of seed_graph x y) /\
  remove_route seed_graph (Some 1) (Some 3) = (seed_graph, NoRouteExists) /\
  remove_route unnamed_graph (Some 8) (Some 1) = (unnamed_graph, Cancelled).
Proof.
  split; [|split].
  - exact (remove_route_removes_both_directions seed_graph (Some 1) (Some 2)
             "Jauhar" "Gulshan" eq_refl eq_refl ltac:(discriminate)).
  - exact (remove_route_removes_both_directions seed_graph (Some 1) (Some 3)
             "Jauhar" "Korangi" eq_refl eq_refl ltac:(discriminate)).
  - exact (remove_route_removes_both_directions unnamed_graph
             (Some 8) (Some 1) "" "Jauhar" eq_refl eq_refl
             ltac:(discriminate)).
Defined.

Lemma dset_dset {V : Type} (m : dict V) k x y :
  dset (dset m k x) k y = dset m k y.
Proof.
  induction m as [|[k0 v0] m IH]; simpl.
  - now rewrite String.eqb_refl.
  - destruct (String.eqb_spec k k0); subst; simpl.
    + now rewrite String.eqb_refl.
    + apply String.eqb_neq in n. rewrite n. now f_equal.
Qed.

Lemma dset_comm {V : Type} (m : dict V) k1 k2 x y :
  k1 <> k2 -> dmem m k1 = true ->
  dset (dset m k2 y) k1 x = dset (dset m k1 x) k2 y.
Proof.
  intros Ne. unfold dmem.
  induction m as [|[k0 v0] m IH]; simpl; [discriminate|].
  destruct (String.eqb_spec k1 k0); subst.
  - intros _. apply String.eqb_neq in Ne. rewrite String.eqb_sym in Ne.
    rewrite Ne. simpl. rewrite String.eqb_refl, Ne. reflexivity.
  - intros M. destruct (String.eqb_spec k2 k0); subst; simpl.
    + apply String.eqb_neq in n. rewrite n, String.eqb_refl. reflexivity.
    + apply String.eqb_neq in n, n0. rewrite n, n0. f_equal. auto.
Qed.

Lemma ddel_dset_absent {V : Type} (m : dict V) k v :
  dget m k = None -> ddel (dset m k v) k = m.
Proof.
  induction m as [|[k0 v0] m IH]; simpl.
  - now rewrite String.eqb_refl.
  - destruct (String.eqb_spec k k0); subst; [discriminate|].
    intros H. simpl. apply String.eqb_neq in n. rewrite n. f_equal. auto.
Qed.

(** X17. Adding a route between two distinct places that had none and
    removing it again gives back the store exactly as it was, order of
    places and of neighbors included. *)
Theorem add_then_remove_route_restores (g : graph) (c1 c2 : option Z)
    (p1 p2 : string) (w : Z) :
  select_place g c1 = Some p1 -> select_place g c2 = Some p2 ->
  p1 <> "" -> p2 <> "" -> p1 <> p2 ->
  weight_of g p1 p2 = None -> weight_of g p2 p1 = None ->
  remove_route (fst (add_route g c1 c2 (Some w))) c1 c2 = (g, RouteRemoved).
Proof.
  intros E1 E2 N1 N2 Ne H12 H21.
  destruct (select_place_key _ _ _ E1) as [nb1 G1].
  destruct (select_place_key _ _ _ E2) as [nb2 G2].
  unfold weight_of in H12, H21. rewrite G1 in H12. rewrite G2 in H21.
  apply String.eqb_neq in N1, N2.
  assert (A : fst (add_route g c1 c2 (Some w)) =
              dset (dset g p1 (dset nb1 p2 w)) p2 (dset nb2 p1 w)).
  { unfold add_route. rewrite E1, E2. cbn [falsy]. rewrite N1, N2.
    cbn [orb fst]. unfold set_both, set_weight. rewrite G1.
    rewrite dget_dset_other, G2 by congruence. reflexivity. }
  assert (K : keys (fst (add_route g c1 c2 (Some w))) = keys g).
  { rewrite A, !keys_dset_present; auto.
    - unfold dmem. now rewrite G1.
    - unfold dmem. rewrite dget_dset_other, G2 by congruence. reflexivity. }
  unfold remove_route. rewrite !(select_place_same_keys g _ _ K), E1, E2.
  cbn [falsy]. rewrite N1, N2. cbn [orb]. rewrite A.
  rewrite dget_dset_other, dget_dset_same by congruence.
  unfold dmem at 1. rewrite dget_dset_same.
  rewrite ddel_dset_absent by assumption.
  rewrite dget_dset_other, dget_dset_same by congruence.
  unfold dmem. rewrite dget_dset_same.
  rewrite ddel_dset_absent by assumption. f_equal.
  rewrite (dset_comm (dset g p1 (dset nb1 p2 w)) p1 p2).
  - rewrite !dset_dset, (dset_same g p1 nb1 G1). now apply dset_same.
  - assumption.
  - unfold dmem. now rewrite dget_dset_same.
Qed.

Lemma add_then_remove_route_restores_witness :
  remove_route (fst (add_route seed_graph (Some 1) (Some 7) (Some 30)))
    (Some 1) (Some 7) = (seed_graph, RouteRemoved).
Proof.
  apply (add_then_remove_route_restores seed_graph (Some 1) (Some 7)
           "Jauhar" "Defence" 30); try reflexivity; discriminate.
Defined.

(** ** The edges highlighted by [visualize_graph] *)

(** X18. Along a sequence of places that is a path of the graph,
    [visualize_graph] highlights routes of the graph only, one for each
    step of the path. *)
Theorem highlighted_edges_are_routes (g : graph) (shortest_path : list string)
    (d : Z) :
  path_weight g shortest_path = Some d ->
  (forall u v, In (u, v) (edges_in_path shortest_path) ->
     weight_of g u v <> None) /\
  List.length (edges_in_path shortest_path) =
    (List.length shortest_path - 1)%nat.
Proof.
  revert d. induction shortest_path as [|u p IH]; intros d P.
  - split; [intros u v [] | reflexivity].
  - destruct p as [|v r]; [split; [intros a b [] | reflexivity]|].
    rewrite path_weight_cons in P.
    destruct (weight_of g u v) as [w|] eqn:E; [|discriminate].
    destruct (path_weight g (v :: r)) as [d'|] eqn:P'; [|discriminate].
    destruct (IH d' eq_refl) as [A B]. split.
    + intros a b [I | I].
      * inversion I; subst. congruence.
      * now apply A.
    + change (edges_in_path (u :: v :: r))
        with ((u, v) :: edges_in_path (v :: r)).
      simpl List.length in *. lia.
Qed.

Lemma highlighted_edges_are_routes_witness :
  (forall u v,
     In (u, v) (edges_in_path ["Jauhar"; "Malir"; "Korangi"]) ->
     weight_of seed_graph u v <> None) /\
  List.length (edges_in_path ["Jauhar"; "Malir"; "Korangi"]) =
    (List.length ["Jauhar"; "Malir"; "Korangi"] - 1)%nat.
Proof.
  apply (highlighted_edges_are_routes seed_graph
           ["Jauhar"; "Malir"; "Korangi"] 11).
  reflexivity.
Defined.



(** ** Float weights *)

(** What a run of the engine on integer weights tells about all paths. *)
Lemma run_gives_minimum (g : graph) (s e : string) fuel path d :
  well_formed g = true -> closed g = true -> nonneg g = true ->
  dmem g s = true -> dmem g e = true ->
  dijkstra_shortest_path fuel g s e = Ok (path, Fin d) ->
  (exists p, simple_path g s e p d) /\
  (forall p d', simple_path g s e p d' -> d <= d').
Proof.
  intros W C N Hs He R. apply dmem_keys in Hs, He.
  destruct (query_distance g s e W C N Hs He) as (n & p0 & d0 & R0 & U & L).
  assert (E : Ok (path, Fin d) = Ok (p0, d0)).
  { eapply dijkstra_deterministic; eauto; discriminate. }
  inversion E; subst. pose proof (U d eq_refl) as Wd. split.
  - apply walk_path in Wd. destruct Wd as [p1 P1].
    destruct (path_shortcut g N _ _ _ _ P1) as (p & d' & S & Le).
    exists p. assert (d <= d').
    { destruct S as [S _]. apply path_walk in S.
      destruct (L d' S) as (b & Eb & Lb). inversion Eb; subst. exact Lb. }
    assert (d' = d) as -> by lia. exact S.
  - intros p d' [S _]. apply path_walk in S.
    destruct (L d' S) as (b & Eb & Lb). inversion Eb; subst. exact Lb.
Qed.

(** C1, as stated, fails on float weights. In [rounding_graph] the routes
    weigh exactly 2^53 and 1, the store invariants hold and [C] is
    reachable from [A]; the least sum of edge weights over the simple paths
    from [A] to [C] is 2^53 + 1, and the distance returned is 2^53: the
    sum was rounded. *)
Lemma float_sum_is_rounded :
  integers_of rounding_graph =
    map (fun kv => (fst kv, map (fun nw => (fst nw, Some (snd nw)))
                              (snd kv))) rounding_graph_exact /\
  symmetric rounding_graph_exact /\
  nonneg rounding_graph_exact = true /\ closed rounding_graph_exact = true /\
  dmem rounding_graph_exact "A" = true /\
  dmem rounding_graph_exact "C" = true /\
  reachable rounding_graph_exact "A" "C" /\
  (exists p, simple_path rounding_graph_exact "A" "C" p (2 ^ 53 + 1)) /\
  (forall p d, simple_path rounding_graph_exact "A" "C" p d ->
     2 ^ 53 + 1 <= d) /\
  exists d,
    FloatEngine.dijkstra_shortest_path 8 rounding_graph "A" "C" =
      Ok (["A"; "B"; "C"], d) /\
    integer_of d = Some (2 ^ 53).
Proof.
  assert (R : dijkstra_shortest_path 8 rounding_graph_exact "A" "C" =
              Ok (["A"; "B"; "C"], Fin (2 ^ 53 + 1)))
    by (vm_compute; reflexivity).
  destruct (run_gives_minimum rounding_graph_exact "A" "C" 8 _ _
              eq_refl eq_refl eq_refl eq_refl eq_refl R) as [Ex Min].
  split; [vm_compute; reflexivity|].
  split; [apply symmetricb_sound; reflexivity|].
  repeat (split; [reflexivity|]).
  split; [exists ["A"; "B"; "C"], (2 ^ 53 + 1); repeat split|].
  split; [exact Ex|]. split; [exact Min|].
  eexists. split; vm_compute; reflexivity.
Qed.

(** On float weights a destination joined to the source can come back as
    [([destination], inf)]: when [inf] is typed for a distance, and when
    the sum of two finite weights overflows. [main] then prints that no
    path exists. *)
Lemma float_weights_can_hide_a_route :
  FloatEngine.dijkstra_shortest_path 8 inf_graph "A" "B" =
    Ok (["B"], infinity) /\
  FloatEngine.dijkstra_shortest_path 8 overflow_graph "A" "C" =
    Ok (["C"], infinity).
Proof. split; vm_compute; reflexivity. Qed.

(** On the seed graph the two embeddings of the engine agree: with the
    weights as floats every query returns the path of the integer engine
    and its distance as a float. *)
Lemma seed_graph_float_agrees (s e : string) :
  In s (keys seed_graph) -> In e (keys seed_graph) ->
  FloatEngine.dijkstra_shortest_path 16 (float_graph_of seed_graph) s e =
  match dijkstra_shortest_path 16 seed_graph s e with
  | Ok (path, d) => Ok (path, float_of_num d)
  | KeyError k => KeyError k
  | OutOfFuel => OutOfFuel
  end.
Proof.
  intros Hs He. simpl in Hs, He.
  repeat (destruct Hs as [<- | Hs]; [|]); try contradiction;
    repeat (destruct He as [<- | He]; [|]); try contradiction;
    vm_compute; reflexivity.
Qed.
